(** * AgentVerse: pipeline builder, pipeline engine and coupling registry

    A shallow embedding of the pipeline builder page of the AgentVerse UI
    (the React component [PipelineBuilder]), of the MCP integration page
    ([MCPIntegrationGlass]), and of the server-side pipeline engine and
    coupling registry, followed by the properties established about them.

    The React component keeps its state in [useState] cells; every handler
    reads the cells of the current render and writes new values.  A handler
    is therefore a function from the state of the component to its next
    state, and the list of user events applied in order is a run.

    The file has two parts: all definitions first, then all theorems. *)

From Stdlib Require Import QArith DecimalString DecimalN.
From stdpp Require Import gmap strings list.

(* ===================================================================== *)
(** * Part I: definitions                                                 *)
(* ===================================================================== *)

(** ** The pipeline builder (PipelineBuilder.jsx) *)

(** A connection [{ from, to }]. *)
Record Connection := { from : string; to : string }.

(** A node [{ id, type, label, position, config }].  [config] is a JS object
    used as a map from keys to strings; [position] holds the two canvas
    coordinates. *)
Record Node := {
  id : string;
  type : string;
  label : string;
  position : Q * Q;
  config : gmap string string
}.

(** An entry of [nodeTypes], fetched from [/api/pipeline/node-types]:
    [config_schema] may be missing; when present it is given by its keys,
    in the order of [Object.keys], each with the [default] of its entry as
    [default || ''] tells defaults apart: [Some s] for a string [s], [None]
    for an entry without [default] and for a falsy one ([null], [false],
    [0]), which [||] replaces by [''] like the empty string.  (A default
    that is [true], a number other than 0, an array or an object would be
    stored as it is; the configurations of this model hold strings, so such
    schemas are outside it.) *)
Record NodeTypeInfo := {
  nt_type : string;
  nt_label : string;
  nt_config_schema : option (list (string * option string))
}.

(** The [useState] cells of the component that the handlers below use. *)
Record Builder := {
  pipelineName : string;
  pipelineDescription : string;
  nodes : list Node;
  connections : list Connection;
  selectedNode : option Node;
  connectionMode : bool;
  connectionStart : option Node;
  currentPipelineId : option string
}.

#[global] Instance Connection_eq_dec : EqDecision Connection.
Proof. solve_decision. Defined.

Definition set_nodes (b : Builder) (ns : list Node) : Builder :=
  {| pipelineName := pipelineName b; pipelineDescription := pipelineDescription b;
     nodes := ns; connections := connections b; selectedNode := selectedNode b;
     connectionMode := connectionMode b; connectionStart := connectionStart b;
     currentPipelineId := currentPipelineId b |}.

Definition set_connections (b : Builder) (cs : list Connection) : Builder :=
  {| pipelineName := pipelineName b; pipelineDescription := pipelineDescription b;
     nodes := nodes b; connections := cs; selectedNode := selectedNode b;
     connectionMode := connectionMode b; connectionStart := connectionStart b;
     currentPipelineId := currentPipelineId b |}.

Definition set_selectedNode (b : Builder) (s : option Node) : Builder :=
  {| pipelineName := pipelineName b; pipelineDescription := pipelineDescription b;
     nodes := nodes b; connections := connections b; selectedNode := s;
     connectionMode := connectionMode b; connectionStart := connectionStart b;
     currentPipelineId := currentPipelineId b |}.

Definition set_connectionMode (b : Builder) (m : bool) : Builder :=
  {| pipelineName := pipelineName b; pipelineDescription := pipelineDescription b;
     nodes := nodes b; connections := connections b; selectedNode := selectedNode b;
     connectionMode := m; connectionStart := connectionStart b;
     currentPipelineId := currentPipelineId b |}.

Definition set_connectionStart (b : Builder) (s : option Node) : Builder :=
  {| pipelineName := pipelineName b; pipelineDescription := pipelineDescription b;
     nodes := nodes b; connections := connections b; selectedNode := selectedNode b;
     connectionMode := connectionMode b; connectionStart := s;
     currentPipelineId := currentPipelineId b |}.

(** The ids of a list of nodes, in order. *)
Definition ids (ns : list Node) : list string := id <$> ns.

(** [`node-${Date.now()}`]: the decimal rendering of the clock reading
    (milliseconds since the epoch) after the prefix. *)
Definition render_number (n : N) : string := NilEmpty.string_of_uint (N.to_uint n).

Definition node_id_of_clock (now : N) : string := "node-" +:+ render_number now.

(** [acc[key] = nodeType.config_schema[key].default || ''], folded over the
    keys of the schema from the empty object [{}].  The key ['__proto__']
    is the one key the assignment does not store: on a plain object it runs
    the setter inherited from [Object.prototype], which ignores a string. *)
Definition default_config (schema : list (string * option string)) : gmap string string :=
  foldl (fun acc kd =>
           if bool_decide (kd.1 = "__proto__") then acc
           else <[kd.1 := default "" kd.2]> acc) ∅ schema.

(** [addNode(type)].  [now] is the value [Date.now()] returns during the
    call and [rx], [ry] are the two draws of [Math.random()]. *)
Definition addNode (nodeTypes : list NodeTypeInfo) (now : N) (rx ry : Q)
    (ty : string) (b : Builder) : Builder :=
  match List.find (fun n => bool_decide (nt_type n = ty)) nodeTypes with
  | None => b
  | Some nodeType =>
      let newNode :=
        {| id := node_id_of_clock now;
           type := ty;
           label := nt_label nodeType;
           position := (250 + rx * 200, 150 + ry * 200)%Q;
           config := match nt_config_schema nodeType with
                     | Some schema => default_config schema
                     | None => ∅
                     end |} in
      set_nodes b (nodes b ++ [newNode])
  end.

(** [connectNodes(fromId, toId)]. *)
Definition connectNodes (fromId toId : string) (b : Builder) : Builder :=
  if bool_decide (fromId = toId) then b
  else
    match List.find (fun c => bool_decide (from c = fromId) && bool_decide (to c = toId))
                    (connections b) with
    | None => set_connections b (connections b ++ [{| from := fromId; to := toId |}])
    | Some _ => b
    end.

(** [removeConnection(fromId, toId)]. *)
Definition removeConnection (fromId toId : string) (b : Builder) : Builder :=
  set_connections b
    (filter (fun c => ¬ (from c = fromId ∧ to c = toId)) (connections b)).

(** [removeNode(nodeId)]. *)
Definition removeNode (nodeId : string) (b : Builder) : Builder :=
  let b1 := set_nodes b (filter (fun n => id n ≠ nodeId) (nodes b)) in
  let b2 := set_connections b1
              (filter (fun c => from c ≠ nodeId ∧ to c ≠ nodeId) (connections b)) in
  match selectedNode b with
  | Some s => if bool_decide (id s = nodeId) then set_selectedNode b2 None else b2
  | None => b2
  end.

(** The pipeline the mount effect installs. *)
Definition defaultNodes : list Node :=
  [ {| id := "node-1"; type := "input"; label := "Input";
       position := (100, 200)%Q; config := ∅ |};
    {| id := "node-2"; type := "agent"; label := "AI Agent";
       position := (350, 200)%Q; config := {[ "agent_id" := "" ]} |};
    {| id := "node-3"; type := "output"; label := "Output";
       position := (600, 200)%Q; config := ∅ |} ].

Definition defaultConnections : list Connection :=
  [ {| from := "node-1"; to := "node-2" |};
    {| from := "node-2"; to := "node-3" |} ].

Definition initialBuilder : Builder :=
  {| pipelineName := "My Pipeline"; pipelineDescription := "AI agent workflow";
     nodes := defaultNodes; connections := defaultConnections;
     selectedNode := None; connectionMode := false; connectionStart := None;
     currentPipelineId := None |}.

(** The pipeline of the "Load Test Pipeline" button. *)
Definition testNodes : list Node :=
  [ {| id := "test-input"; type := "input"; label := "User Input";
       position := (100, 200)%Q; config := ∅ |};
    {| id := "test-text"; type := "text"; label := "Make Uppercase";
       position := (350, 200)%Q; config := {[ "operation" := "uppercase" ]} |};
    {| id := "test-output"; type := "output"; label := "Result";
       position := (600, 200)%Q; config := ∅ |} ].

Definition testConnections : list Connection :=
  [ {| from := "test-input"; to := "test-text" |};
    {| from := "test-text"; to := "test-output" |} ].

Definition loadTestPipeline (b : Builder) : Builder :=
  {| pipelineName := "Test Text Pipeline";
     pipelineDescription := "Simple text transformation pipeline";
     nodes := testNodes; connections := testConnections;
     selectedNode := selectedNode b; connectionMode := connectionMode b;
     connectionStart := connectionStart b;
     currentPipelineId := currentPipelineId b |}.


(** The click handler of a rendered node. *)
Definition nodeClick (node : Node) (b : Builder) : Builder :=
  if connectionMode b then
    match connectionStart b with
    | None => set_connectionStart b (Some node)
    | Some start =>
        if bool_decide (id start ≠ id node) then
          set_connectionMode (set_connectionStart (connectNodes (id start) (id node) b) None) false
        else b
    end
  else set_selectedNode b (Some node).

(** The "Connect Mode" / "Cancel Connect" button. *)
Definition toggleConnectMode (b : Builder) : Builder :=
  set_connectionStart (set_connectionMode b (negb (connectionMode b))) None.

Definition with_label (n : Node) (l : string) : Node :=
  {| id := id n; type := type n; label := l; position := position n; config := config n |}.

Definition with_config (n : Node) (k v : string) : Node :=
  {| id := id n; type := type n; label := label n; position := position n;
     config := <[k := v]> (config n) |}.

Definition with_position (n : Node) (p : Q * Q) : Node :=
  {| id := id n; type := type n; label := label n; position := p; config := config n |}.

(** The keys the properties panel edits for each node type. *)
Definition editable_key (ty k : string) : bool :=
  bool_decide (ty = "agent" ∧ k = "agent_id")
  || bool_decide (ty = "text" ∧ k = "operation")
  || bool_decide (ty = "mcp_server" ∧ (k = "server_name" ∨ k = "tool_name")).

(** What the user can do on the page. *)
Inductive Event :=
| EAddNode (nodeTypes : list NodeTypeInfo) (now : N) (rx ry : Q) (ty : string)
| ENodeClick (i : nat)             (* click on the i-th rendered node *)
| EToggleConnectMode
| ERemoveSelected                  (* the X of the properties panel *)
| EConnectionClick (i : nat)       (* click on the i-th connection line, confirmed *)
| EClearConnections                (* "Clear Connections", confirmed *)
| ELoadTestPipeline
| EEditLabel (l : string)
| EEditConfig (k v : string)
| EDragEnd (i : nat) (x y : Q).

(** One event applied to the state of the current render.  An event on an
    element that is not rendered leaves the state as it is. *)
Definition handle (e : Event) (b : Builder) : Builder :=
  match e with
  | EAddNode nodeTypes now rx ry ty =>
      addNode nodeTypes now rx ry ty b
  | ENodeClick i =>
      match nodes b !! i with
      | Some node => nodeClick node b
      | None => b
      end
  | EToggleConnectMode => toggleConnectMode b
  | ERemoveSelected =>
      match selectedNode b with
      | Some s => removeNode (id s) b
      | None => b
      end
  | EConnectionClick i =>
      match connections b !! i with
      | Some conn =>
          (* a line is drawn only when both of its end nodes are found *)
          if bool_decide (from conn ∈ ids (nodes b)) && bool_decide (to conn ∈ ids (nodes b))
          then removeConnection (from conn) (to conn) b
          else b
      | None => b
      end
  | EClearConnections =>
      match connections b with
      | [] => b
      | _ => set_connections b []
      end
  | ELoadTestPipeline => loadTestPipeline b
  | EEditLabel l =>
      match selectedNode b with
      | Some s =>
          set_selectedNode
            (set_nodes b ((fun n => if bool_decide (id n = id s) then with_label n l else n)
                            <$> nodes b))
            (Some (with_label s l))
      | None => b
      end
  | EEditConfig k v =>
      match selectedNode b with
      | Some s =>
          if editable_key (type s) k then
            set_selectedNode
              (set_nodes b ((fun n => if bool_decide (id n = id s) then with_config n k v else n)
                              <$> nodes b))
              (Some (with_config s k v))
          else b
      | None => b
      end
  | EDragEnd i x y =>
      match nodes b !! i with
      | Some node =>
          set_nodes b ((fun n => if bool_decide (id n = id node) then with_position n (x, y) else n)
                         <$> nodes b)
      | None => b
      end
  end.

(** A run: the events applied in order. *)
Definition run (es : list Event) (b : Builder) : Builder :=
  foldl (fun s e => handle e s) b es.

(** A sequence of connect operations, each a pair [(fromId, toId)]. *)
Definition connectAll (ops : list (string * string)) (b : Builder) : Builder :=
  foldl (fun s op => connectNodes op.1 op.2 s) b ops.

(** No self-loop, no repeated pair. *)
Definition loop_free (cs : list Connection) : Prop := ∀ c, c ∈ cs → from c ≠ to c.

(** Both ends of every connection are ids of nodes. *)
Definition ends_exist (ns : list Node) (cs : list Connection) : Prop :=
  ∀ c, c ∈ cs → from c ∈ ids ns ∧ to c ∈ ids ns.

(** ** Saving and running from the builder (PipelineBuilder.jsx) *)

(** The body [savePipeline] posts: the nodes with their five fields and the
    connections as they are. *)
Record PipelineData := {
  data_name : string;
  data_description : string;
  data_nodes : list Node;
  data_connections : list Connection
}.

(** What a handler asks of the outside: a toast, or a request to the API. *)
Inductive Effect :=
| ToastError (msg : string)
| ToastSuccess (msg : string)
| CreatePipeline (data : PipelineData)              (* POST /api/pipeline/pipelines *)
| UpdatePipeline (pid : string) (data : PipelineData) (* PUT .../pipelines/{id} *)
| ValidateRequest (pid : string)                    (* POST .../{id}/validate *)
| ExecuteRequest (pid : string) (inputData : string). (* POST .../{id}/execute *)

Definition pipelineData (b : Builder) : PipelineData :=
  {| data_name := pipelineName b;
     data_description := pipelineDescription b;
     data_nodes := nodes b;
     data_connections := connections b |}.

(** [savePipeline()]. *)
Definition savePipeline (b : Builder) : list Effect :=
  let hasInput := existsb (fun n => bool_decide (type n = "input")) (nodes b) in
  let hasOutput := existsb (fun n => bool_decide (type n = "output")) (nodes b) in
  if negb hasInput || negb hasOutput then
    [ToastError "Pipeline must have at least one Input and one Output node"]
  else
    match currentPipelineId b with
    | Some pid => [UpdatePipeline pid (pipelineData b)]
    | None => [CreatePipeline (pipelineData b)]
    end.

(** The reply of the validate endpoint, [{ valid, issues }]. *)
Record ValidationResult := { valid : bool; issues : list string }.

(** [runPipeline()].  [validation] is the reply the validate request gets
    and [inputData] what [prompt] returns ([None] for a cancelled dialog);
    both are consulted only on the paths that reach them.  (A validate
    request that fails throws and ends the handler there.) *)
Definition runPipeline (b : Builder) (validation : ValidationResult)
    (inputData : option string) : list Effect :=
  match currentPipelineId b with
  | None => [ToastError "Please save the pipeline first"]
  | Some pid =>
      ValidateRequest pid ::
      if negb (valid validation) then
        [ToastError ("Pipeline validation failed: " +:+ String.concat ", " (issues validation))]
      else
        match inputData with
        | None => []
        | Some inp => [ExecuteRequest pid inp]
        end
  end.

(** ** The pipeline engine (server side) *)

(** Modelled from the spec: the pipeline engine of the API server
    ([pipeline_engine.py], [pipeline_router.py]) is not part of the sources
    at hand.  Sections 3, 4.1, 4.2 and 4.3 of the specification are followed
    sentence by sentence; the type tags and configuration keys are the ones
    the builder writes (['input'], ['output'], ['text'], ['agent'],
    ['mcp_server']; [operation], [agent_id], [server_name], [tool_name]). *)
Inductive NodeType := Input | Output | TextTransform | AgentCall | McpToolCall.

(** Modelled from the spec: the lookup from the declared type of a node to
    its variant, the engine's table of executors being absent; [None] for a
    tag that has no executor. *)
Definition node_type_of (tag : string) : option NodeType :=
  if bool_decide (tag = "input") then Some Input
  else if bool_decide (tag = "output") then Some Output
  else if bool_decide (tag = "text") then Some TextTransform
  else if bool_decide (tag = "agent") then Some AgentCall
  else if bool_decide (tag = "mcp_server") then Some McpToolCall
  else None.

#[global] Instance NodeType_eq_dec : EqDecision NodeType.
Proof. solve_decision. Defined.

(** Modelled from the spec: a pipeline definition (section 3). *)
Record PipelineDefinition := {
  pd_id : string;
  pd_name : string;
  pd_description : string;
  pd_version : nat;
  pd_nodes : list Node;
  pd_connections : list Connection
}.

(** Modelled from the spec: what the Capability Registry, an external
    collaborator, returns for an agent (section 6). *)
Record AgentInfo := { agent_tags : gset string; agent_model : string }.

(** Modelled from the spec: what the Capability Registry returns for a
    server (section 6). *)
Record ServerInfo := { server_tags : gset string; server_tools : list string }.

(** Modelled from the spec: the Capability Registry itself, agents and
    servers by id; an id without entry is the [NotFoundError] case. *)
Record Registry := {
  agents : gmap string AgentInfo;
  servers : gmap string ServerInfo
}.

(** Modelled from the spec: the operations of a TextTransform node
    (section 4.3). *)
Inductive Operation := Uppercase | Lowercase | Reverse | WordCount.

(** Modelled from the spec: the reading of [config.operation], the
    executor's own being absent; the four names of section 4.3. *)
Definition operation_of (s : string) : option Operation :=
  if bool_decide (s = "uppercase") then Some Uppercase
  else if bool_decide (s = "lowercase") then Some Lowercase
  else if bool_decide (s = "reverse") then Some Reverse
  else if bool_decide (s = "word_count") then Some WordCount
  else None.

(** Modelled from the spec: the direct predecessors of a node, in the
    order the connections were declared (section 4.2); the engine's graph
    code is absent. *)
Definition predecessors (cs : list Connection) (n : string) : list string :=
  from <$> filter (fun c => to c = n) cs.

(** Modelled from the spec: the direct successors of a node, in the order
    the connections were declared. *)
Definition successors (cs : list Connection) (n : string) : list string :=
  to <$> filter (fun c => from c = n) cs.

(** Modelled from the spec: what the cycle search of the absent validator
    can come back with: the nodes it has left, newest first, or the node it
    met again on the active stack. *)
Inductive DfsResult :=
| DfsDone (finished : list string)
| DfsCycle (node : string)
| DfsOutOfFuel.

(** Modelled from the spec: check 5 of the absent validator (section 4.1),
    a depth-first search with a recursion-stack marker.  [stack] is the
    active recursion stack, [finished] the nodes already left; a node met
    again while on the stack is a cycle.  The recursion is on [fuel]. *)
Fixpoint dfs (cs : list Connection) (fuel : nat) (stack : list string)
    (n : string) (finished : list string) : DfsResult :=
  match fuel with
  | O => DfsOutOfFuel
  | S fuel' =>
      if bool_decide (n ∈ stack) then DfsCycle n
      else if bool_decide (n ∈ finished) then DfsDone finished
      else
        match foldl (fun acc m =>
                       match acc with
                       | DfsDone fin => dfs cs fuel' (n :: stack) m fin
                       | r => r
                       end)
                    (DfsDone finished) (successors cs n) with
        | DfsDone fin => DfsDone (n :: fin)
        | r => r
        end
  end.

Arguments dfs : simpl never.

(** Modelled from the spec: the search goes on from the next node unless a
    cycle was found (the step of the loops of the absent validator). *)
Definition dfs_next (cs : list Connection) (fuel : nat) (stack : list string)
    (acc : DfsResult) (m : string) : DfsResult :=
  match acc with
  | DfsDone fin => dfs cs fuel stack m fin
  | r => r
  end.

(** Modelled from the spec: the fuel of the search, more than the number of
    vertices, which bounds the depth of the stack. *)
Definition dfs_fuel (ns : list string) (cs : list Connection) : nat :=
  S (length (ns ++ (to <$> cs))).

(** Modelled from the spec: the search of check 5 started from every node
    in turn. *)
Definition dfs_all (ns : list string) (cs : list Connection) : DfsResult :=
  foldl (dfs_next cs (dfs_fuel ns cs) []) (DfsDone []) ns.

(** Modelled from the spec: check 6, the configuration of a node against the
    schema of its type: required keys present, the operation one of the
    four, the agent and the server known to the Capability Registry. *)
Definition config_ok (reg : Registry) (n : Node) : bool :=
  match node_type_of (type n) with
  | None => false
  | Some Input | Some Output => true
  | Some TextTransform =>
      match config n !! "operation" with
      | Some op => bool_decide (is_Some (operation_of op))
      | None => false
      end
  | Some AgentCall =>
      match config n !! "agent_id" with
      | Some a => bool_decide (is_Some (agents reg !! a))
      | None => false
      end
  | Some McpToolCall =>
      match config n !! "server_name", config n !! "tool_name" with
      | Some s, Some _ => bool_decide (is_Some (servers reg !! s))
      | _, _ => false
      end
  end.

(** Modelled from the spec: the issues of the six checks.  Only the text
    "missing output node" is fixed by the specification; the other texts
    stand for "a distinct issue string" each. *)
Inductive Issue :=
| MissingInput
| MissingOutput
| UnknownEndpoint
| DuplicateOrSelfLoop
| Cycle (node : string)
| BadConfig.

(** Modelled from the spec: the issue strings of the absent validator. *)
Definition issue_string (i : Issue) : string :=
  match i with
  | MissingInput => "missing input node"
  | MissingOutput => "missing output node"
  | UnknownEndpoint => "connection references unknown node"
  | DuplicateOrSelfLoop => "duplicate or self-loop connection"
  | Cycle n => "cycle detected at " +:+ n
  | BadConfig => "invalid node config"
  end.

(** Modelled from the spec: checks 1 and 2, some node of the given type
    exists. *)
Definition has_type (t : NodeType) (ns : list Node) : bool :=
  existsb (fun n => bool_decide (node_type_of (type n) = Some t)) ns.

(** Modelled from the spec: the six checks of the absent validator in
    order, each adding its issue when violated (section 4.1).  A search
    that ran out of fuel would be reported like a cycle; [dfs_all_fuel]
    shows it never does. *)
Definition validation_issues (reg : Registry) (def : PipelineDefinition) : list Issue :=
  let ns := pd_nodes def in
  let cs := pd_connections def in
  (if has_type Input ns then [] else [MissingInput]) ++
  (if has_type Output ns then [] else [MissingOutput]) ++
  (if bool_decide (Forall (fun c => from c ∈ ids ns ∧ to c ∈ ids ns) cs)
   then [] else [UnknownEndpoint]) ++
  (if bool_decide (NoDup cs ∧ Forall (fun c => from c ≠ to c) cs)
   then [] else [DuplicateOrSelfLoop]) ++
  match dfs_all (ids ns) cs with
  | DfsDone _ => []
  | DfsCycle n => [Cycle n]
  | DfsOutOfFuel => [Cycle ""]
  end ++
  (if forallb (config_ok reg) ns then [] else [BadConfig]).

(** Modelled from the spec: [validate(def)] of the absent validator, valid
    when no check raised an issue. *)
Definition validate (reg : Registry) (def : PipelineDefinition) : ValidationResult :=
  let found := validation_issues reg def in
  {| valid := bool_decide (found = []); issues := issue_string <$> found |}.

#[local] Unset Elimination Schemes.
(** Modelled from the spec: the payload flowing along the edges of the
    absent executor.  A run starts from a single input; several
    predecessors are merged into an ordered array keyed by predecessor id
    (section 4.2); [word_count] yields a number. *)
Inductive Payload :=
| PStr (s : string)
| PNum (n : nat)
| PArr (items : list (string * Payload)).
#[local] Set Elimination Schemes.

(** Modelled from the spec: the kinds of an [ExternalCallError] of the
    absent executor (section 4.2). *)
Inductive ErrorKind := Timeout | ProviderError | ToolError.

(** Modelled from the spec: the typed outcome a node executor hands to the
    scheduler (section 4.3). *)
Inductive Outcome := Ok (out : Payload) | Err (kind : ErrorKind).

(** Modelled from the spec: the external collaborators of a run, absent
    by design (section 6).  The first argument of [complete] and [callTool] is the calling
    node: two calls with equal arguments need not answer alike, and a node
    is called at most once in a run.  [coupling_active server] tells whether
    the agent context of the pipeline has an Active coupling with the
    server. *)
Record Env := {
  registry : Registry;
  complete : string → string → Payload → Outcome;
  callTool : string → string → string → Payload → Outcome;
  coupling_active : string → bool
}.

(** Modelled from the spec: [uppercase] on one character of the absent
    TextTransform executor; the letters a to z are mapped, every other byte
    is kept. *)
Definition upper_ascii (c : Ascii.ascii) : Ascii.ascii :=
  let k := Ascii.nat_of_ascii c in
  if (97 <=? k)%nat && (k <=? 122)%nat then Ascii.ascii_of_nat (k - 32) else c.

(** Modelled from the spec: [lowercase] on one character, likewise. *)
Definition lower_ascii (c : Ascii.ascii) : Ascii.ascii :=
  let k := Ascii.nat_of_ascii c in
  if (65 <=? k)%nat && (k <=? 90)%nat then Ascii.ascii_of_nat (k + 32) else c.

(** Modelled from the spec: a character map applied along a string, for
    the two case operations. *)
Fixpoint map_string (f : Ascii.ascii → Ascii.ascii) (s : string) : string :=
  match s with
  | String.EmptyString => String.EmptyString
  | String.String c s' => String.String (f c) (map_string f s')
  end.

(** Modelled from the spec: the line feed put between the items of an
    array taken as text (the specification is silent on arrays). *)
Definition newline : string := String.String (Ascii.ascii_of_nat 10) String.EmptyString.

(** Modelled from the spec: the text the absent TextTransform executor
    works on.  The specification speaks of strings only; a number is taken
    in decimal and an array as its items' texts joined by line feeds. *)
Fixpoint payload_text (p : Payload) : string :=
  match p with
  | PStr s => s
  | PNum n => render_number (N.of_nat n)
  | PArr items =>
      String.concat newline ((fun kv => payload_text kv.2) <$> items)
  end.

(** Modelled from the spec: the absent TextTransform executor, a pure
    string operation chosen by [config.operation] (section 4.3). *)
Definition text_transform (op : Operation) (p : Payload) : Payload :=
  let s := payload_text p in
  match op with
  | Uppercase => PStr (map_string upper_ascii s)
  | Lowercase => PStr (map_string lower_ascii s)
  | Reverse => PStr (String.rev s)
  | WordCount => PNum (length (String.words s))
  end.

(** Modelled from the spec: the absent node executors, one per type
    (section 4.3).  [None] is [UnknownNodeTypeError]: the declared type has
    no executor.  The branches for a configuration that check 6 rejects are
    not reached by a validated definition (a text node without operation is
    given the one the builder shows for it). *)
Definition run_node (env : Env) (n : Node) (input : Payload) : option Outcome :=
  match node_type_of (type n) with
  | None => None
  | Some Input => Some (Ok input)
  | Some Output => Some (Ok input)
  | Some TextTransform =>
      match config n !! "operation" ≫= operation_of with
      | Some op => Some (Ok (text_transform op input))
      | None => Some (Ok (text_transform Uppercase input))
      end
  | Some AgentCall =>
      match config n !! "agent_id" ≫= fun a => agents (registry env) !! a with
      | Some agent => Some (complete env (id n) (agent_model agent) input)
      | None => Some (Err ProviderError)
      end
  | Some McpToolCall =>
      match config n !! "server_name", config n !! "tool_name" with
      | Some server, Some tool =>
          if coupling_active env server
          then Some (callTool env (id n) server tool input)
          else Some (Err ToolError)
      | _, _ => Some (Err ToolError)
      end
  end.

(** Modelled from the spec: the status of a node in a run of the absent
    executor (section 3). *)
Inductive NodeStatus := Pending | Running | Succeeded | Failed | Skipped.

#[global] Instance NodeStatus_eq_dec : EqDecision NodeStatus.
Proof. solve_decision. Defined.

(** Modelled from the spec: [NodeState], [{status, output?, error?}]
    (section 3). *)
Record NodeState := {
  status : NodeStatus;
  output : option Payload;
  error : option ErrorKind
}.

(** Modelled from the spec: the state every node starts in. *)
Definition pendingState : NodeState :=
  {| status := Pending; output := None; error := None |}.

(** Modelled from the spec: the state of a node marked Skipped. *)
Definition skippedState : NodeState :=
  {| status := Skipped; output := None; error := None |}.

(** Modelled from the spec: the outcome of a node executor recorded by the
    scheduler: the output of a success, the error kind of a failure. *)
Definition state_of_outcome (o : Outcome) : NodeState :=
  match o with
  | Ok out => {| status := Succeeded; output := Some out; error := None |}
  | Err k => {| status := Failed; output := None; error := Some k |}
  end.

(** Modelled from the spec: the state of the absent scheduler (section
    4.2): the state of every node, the in-degree map of Kahn's algorithm, the ready set, and
    the log of the node executors invoked so far with their inputs. *)
Record ExecState := {
  nodeStates : gmap string NodeState;
  inDegree : gmap string Z;
  ready : list string;
  calls : list (string * Payload)
}.

(** Modelled from the spec: the status recorded for a node, if any. *)
Definition status_of (m : gmap string NodeState) (n : string) : option NodeStatus :=
  status <$> m !! n.

(** Modelled from the spec: "build an in-degree map from connections":
    every node starts at 0 and each connection adds 1 to its target. *)
Definition build_in_degree (ns : list string) (cs : list Connection) : gmap string Z :=
  foldl (fun m c => <[to c := (default 0 (m !! to c) + 1)%Z]> m)
        (list_to_map ((fun i => (i, 0%Z)) <$> ns)) cs.

(** Modelled from the spec: the start of a run: every node Pending, the
    nodes with in-degree 0 ready, no executor invoked yet. *)
Definition init_state (def : PipelineDefinition) : ExecState :=
  let ns := ids (pd_nodes def) in
  let deg := build_in_degree ns (pd_connections def) in
  {| nodeStates := list_to_map ((fun i => (i, pendingState)) <$> ns);
     inDegree := deg;
     ready := filter (fun i => deg !! i = Some 0%Z) ns;
     calls := [] |}.

(** Modelled from the spec: the output of a predecessor that succeeded. *)
Definition succeeded_output (m : gmap string NodeState) (p : string) : option Payload :=
  match m !! p with
  | Some st => if bool_decide (status st = Succeeded) then output st else None
  | None => None
  end.

(** Modelled from the spec: the input of a node whose predecessors are all
    terminal.  Without predecessor it is the raw input of the run; a single
    predecessor passes its output verbatim; several are merged, in the
    order of declaration, into an array keyed by predecessor id.  [None]
    when no predecessor succeeded: the node is reachable only through
    failed or skipped nodes and is skipped. *)
Definition node_input (input : Payload) (m : gmap string NodeState)
    (cs : list Connection) (n : string) : option Payload :=
  match predecessors cs n with
  | [] => Some input
  | [p] => succeeded_output m p
  | ps =>
      match omap (fun p => (fun o => (p, o)) <$> succeeded_output m p) ps with
      | [] => None
      | outs => Some (PArr outs)
      end
  end.

(** Modelled from the spec: the node of the definition with a given id. *)
Definition find_node (ns : list Node) (i : string) : option Node :=
  List.find (fun n => bool_decide (id n = i)) ns.

(** Modelled from the spec: "after a node finishes, each successor's
    in-degree is decremented; any successor reaching in-degree 0 joins the
    ready set", for one successor. *)
Definition release_one (acc : gmap string Z * list string) (m : string)
    : gmap string Z * list string :=
  let d := (default 0 (acc.1 !! m) - 1)%Z in
  (<[m := d]> acc.1, if bool_decide (d = 0%Z) then acc.2 ++ [m] else acc.2).

(** Modelled from the spec: the same over the successors of the finished
    node, in the order of declaration. *)
Definition release (cs : list Connection) (n : string)
    (acc : gmap string Z * list string) : gmap string Z * list string :=
  foldl release_one acc (successors cs n).

(** Modelled from the spec: the scheduler's bookkeeping when node [n]
    reaches the terminal state [st]: the state is recorded, the node leaves
    the ready set and its successors are released. *)
Definition finish (cs : list Connection) (s : ExecState) (n : string)
    (st : NodeState) (log : list (string * Payload)) : ExecState :=
  let acc := release cs n (inDegree s, filter (fun m => m ≠ n) (ready s)) in
  {| nodeStates := <[n := st]> (nodeStates s);
     inDegree := acc.1;
     ready := acc.2;
     calls := log |}.

(** Modelled from the spec: one ready node taken to its terminal state by
    the absent scheduler: skipped when it has no input, run otherwise.
    [None] is the fatal [UnknownNodeTypeError]. *)
Definition exec_node (env : Env) (def : PipelineDefinition) (input : Payload)
    (s : ExecState) (n : string) : option ExecState :=
  match find_node (pd_nodes def) n with
  | None => None
  | Some node =>
      match node_input input (nodeStates s) (pd_connections def) n with
      | None => Some (finish (pd_connections def) s n skippedState (calls s))
      | Some inp =>
          match run_node env node inp with
          | None => None
          | Some o =>
              Some (finish (pd_connections def) s n (state_of_outcome o)
                           (calls s ++ [(n, inp)]))
          end
      end
  end.

(** Modelled from the spec: nodes without dependency between them run
    concurrently (section 4.2); their executions share no state, so a run
    is an interleaving in which any ready node may be the next to finish. *)
Definition step (env : Env) (def : PipelineDefinition) (input : Payload)
    (s s' : ExecState) : Prop :=
  ∃ n, n ∈ ready s ∧ exec_node env def input s n = Some s'.

(** Modelled from the spec: the schedule that always takes the oldest
    ready node, until none is left or the fuel is spent. *)
Fixpoint drive (env : Env) (def : PipelineDefinition) (input : Payload)
    (fuel : nat) (s : ExecState) : option ExecState :=
  match fuel with
  | O => Some s
  | S fuel' =>
      match ready s with
      | [] => Some s
      | n :: _ =>
          match exec_node env def input s n with
          | None => None
          | Some s' => drive env def input fuel' s'
          end
      end
  end.

(** Modelled from the spec: the overall status of a run (section 3). *)
Inductive RunStatus := RunPending | RunRunning | RunSucceeded | RunFailed.

(** Modelled from the spec: the execution record (section 3), with the
    final result the API returns next to it; the clock readings are left
    out. *)
Record ExecutionRecord := {
  er_id : nat;
  er_pipeline : string;
  er_version : nat;
  er_input : Payload;
  er_status : RunStatus;
  er_nodeStates : gmap string NodeState;
  er_result : option Payload
}.

(** Modelled from the spec: the errors [execute] raises itself (section
    4.2). *)
Inductive ExecError :=
| ValidationError (found : list string)
| UnknownNodeTypeError.

(** Modelled from the spec: the run is Failed when some node failed. *)
Definition overall_status (ns : list string) (m : gmap string NodeState) : RunStatus :=
  if existsb (fun i => bool_decide (status_of m i = Some Failed)) ns
  then RunFailed else RunSucceeded.

(** Modelled from the spec: the final result, the output of the Output
    node (the first that succeeded, in the order of the nodes). *)
Definition final_result (ns : list Node) (m : gmap string NodeState) : option Payload :=
  head (omap (fun n => if bool_decide (node_type_of (type n) = Some Output)
                       then succeeded_output m (id n) else None) ns).

(** Modelled from the spec: the record of a finished run. *)
Definition record_of (eid : nat) (def : PipelineDefinition) (input : Payload)
    (s : ExecState) : ExecutionRecord :=
  {| er_id := eid;
     er_pipeline := pd_id def;
     er_version := pd_version def;
     er_input := input;
     er_status := overall_status (ids (pd_nodes def)) (nodeStates s);
     er_nodeStates := nodeStates s;
     er_result := final_result (pd_nodes def) (nodeStates s) |}.

(** Modelled from the spec: [execute(def, input)] of the absent executor
    (section 4.2).  A
    definition that does not validate is rejected with [ValidationError]
    before anything else happens.  The first component is the log of the
    node executors invoked, the second the error or the record. *)
Definition execute (env : Env) (def : PipelineDefinition) (input : Payload)
    (eid : nat) : list (string * Payload) * (ExecError + ExecutionRecord) :=
  let v := validate (registry env) def in
  if valid v then
    match drive env def input (length (pd_nodes def)) (init_state def) with
    | Some s => (calls s, inr (record_of eid def input s))
    | None => ([], inl UnknownNodeTypeError)
    end
  else ([], inl (ValidationError (issues v))).

(** Modelled from the spec: the engine behind the boundary operations
    [validatePipeline], [executePipeline], [getExecution] (section 6): the
    stored definitions and the append-only history of execution records. *)
Record Engine := {
  pipelines : gmap string PipelineDefinition;
  executions : list ExecutionRecord
}.

(** Modelled from the spec: the boundary operation [validatePipeline]. *)
Definition validatePipeline (env : Env) (def : PipelineDefinition) (e : Engine)
    : ValidationResult * Engine :=
  (validate (registry env) def, e).

(** Modelled from the spec: the boundary operation [executePipeline]; a
    run that completes adds its record to the history. *)
Definition executePipeline (env : Env) (def : PipelineDefinition) (input : Payload)
    (e : Engine) : list (string * Payload) * (ExecError + ExecutionRecord) * Engine :=
  let r := execute env def input (length (executions e)) in
  match r.2 with
  | inr rec => (r, {| pipelines := pipelines e; executions := executions e ++ [rec] |})
  | inl _ => (r, e)
  end.

(** Modelled from the spec: the boundary operation [getExecution]. *)
Definition getExecution (e : Engine) (eid : nat) : option ExecutionRecord :=
  executions e !! eid.


(** Paths of the connection graph: consecutive nodes are joined by a
    declared connection. *)
Fixpoint linked (cs : list Connection) (p : list string) : Prop :=
  match p with
  | a :: rest =>
      match rest with
      | b :: _ => {| from := a; to := b |} ∈ cs ∧ linked cs rest
      | [] => True
      end
  | [] => True
  end.

(** [p ++ [n]] is a path to [n] that starts at a node without predecessor. *)
Definition root_path (cs : list Connection) (p : list string) (n : string) : Prop :=
  linked cs (p ++ [n]) ∧ ∃ r, head (p ++ [n]) = Some r ∧ predecessors cs r = [].


(** A list of nodes in which every node has all its successors further to
    the right: a topological order of the part of the graph it covers. *)
Inductive topo (cs : list Connection) : list string → Prop :=
| topo_nil : topo cs []
| topo_cons n l :
    topo cs l → n ∉ l → (∀ m, m ∈ successors cs n → m ∈ l) → topo cs (n :: l).

(** The statuses a node can end in, and those that mean its executor ran. *)
Definition terminal (x : NodeStatus) : Prop := x = Succeeded ∨ x = Failed ∨ x = Skipped.

Definition executed (x : NodeStatus) : Prop := x = Succeeded ∨ x = Failed.

Definition pend (m : gmap string NodeState) (n : string) : Prop :=
  status_of m n = Some Pending.

Definition finished (m : gmap string NodeState) (n : string) : Prop :=
  ∃ x, status_of m n = Some x ∧ terminal x.

#[global] Instance pend_dec m n : Decision (pend m n).
Proof. unfold pend. apply _. Defined.

(** What the scheduler decided for a finished node, read against the
    states of its predecessors: it was skipped when it has predecessors and
    none of them succeeded, and its executor ran otherwise. *)
Definition decided (cs : list Connection) (m : gmap string NodeState) (n : string) : Prop :=
  (∀ p, p ∈ predecessors cs n → finished m p) ∧
  (status_of m n = Some Skipped →
     predecessors cs n ≠ [] ∧
     ∀ p, p ∈ predecessors cs n → status_of m p ≠ Some Succeeded) ∧
  (∀ x, status_of m n = Some x → executed x →
     predecessors cs n = [] ∨
     ∃ p, p ∈ predecessors cs n ∧ status_of m p = Some Succeeded).

(** The invariant of a run over a definition with nodes [ns] and
    connections [cs]. *)
Record run_inv (ns : list string) (cs : list Connection) (s : ExecState) : Prop := {
  inv_dom : ∀ n, n ∈ ns → pend (nodeStates s) n ∨ finished (nodeStates s) n;
  inv_deg : ∀ n, n ∈ ns →
    inDegree s !! n
    = Some (Z.of_nat (length (filter (pend (nodeStates s)) (predecessors cs n))));
  inv_ready : ∀ n, n ∈ ready s ↔
    n ∈ ns ∧ pend (nodeStates s) n ∧ inDegree s !! n = Some 0%Z;
  inv_ready_nodup : NoDup (ready s);
  inv_decided : ∀ n, finished (nodeStates s) n → decided cs (nodeStates s) n;
  inv_output : ∀ n st, nodeStates s !! n = Some st → status st = Succeeded →
    is_Some (output st);
  inv_calls : ∀ n, n ∈ (calls s).*1 ↔
    ∃ x, status_of (nodeStates s) n = Some x ∧ executed x;
  inv_path : ∀ n x, status_of (nodeStates s) n = Some x → executed x →
    ∃ p, root_path cs p n ∧ ∀ q, q ∈ p → status_of (nodeStates s) q = Some Succeeded
}.

(** ** The MCP integration page (MCPIntegrationGlass.jsx) *)

(** The body the "Create Coupling" button posts to [/api/mcp/couplings]:
    the ids of the selected agent and server, nothing else. *)
Record CouplingRequest := { req_agentId : string; req_serverId : string }.

Definition createCoupling (selectedAgent selectedServer : string) : CouplingRequest :=
  {| req_agentId := selectedAgent; req_serverId := selectedServer |}.

(** ** The compatibility levels (server side) *)

(** Modelled from the spec: the levels the compatibility analyzer reports
    (section 4.4), under the names the integration page looks up in
    [getCompatibilityColor].  The analyzer itself is not part of the
    sources at hand; the registry below takes its verdict as a parameter. *)
Inductive CompatibilityLevel := PERFECT | HIGH | MEDIUM | LOW | MINIMAL | INCOMPATIBLE.

#[global] Instance CompatibilityLevel_eq_dec : EqDecision CompatibilityLevel.
Proof. solve_decision. Defined.

(** ** The coupling registry (server side) *)

(** Modelled from the spec: the coupling registry of the API server is not
    part of the sources at hand; sections 3, 4.5 and 5 are followed.  Every
    operation is one atomic step on the registry, as sections 4.5 and 5 ask
    of [create] and [activate]; concurrent calls are then the orders in
    which their steps can be taken.  A coupling is known by its position in
    the registry. *)
Inductive CouplingState := Created | Tested | Active | Inactive.

#[global] Instance CouplingState_eq_dec : EqDecision CouplingState.
Proof. solve_decision. Defined.

(** Modelled from the spec: a coupling record (section 3). *)
Record Coupling := {
  agentId : string;
  serverId : string;
  level : CompatibilityLevel;
  state : CouplingState;
  createdAt : nat
}.


(** Modelled from the spec: a coupling moved to another state. *)
Definition with_state (c : Coupling) (st : CouplingState) : Coupling :=
  {| agentId := agentId c; serverId := serverId c; level := level c;
     state := st; createdAt := createdAt c |}.

(** Modelled from the spec: a coupling of the pair that is Active. *)
Definition active_for (a s : string) (c : Coupling) : Prop :=
  agentId c = a ∧ serverId c = s ∧ state c = Active.

#[global] Instance active_for_dec a s c : Decision (active_for a s c).
Proof. unfold active_for. apply _. Defined.










(** ** Sample pipelines *)

Definition sample_node (i ty : string) (cfg : gmap string string) : Node :=
  {| id := i; type := ty; label := i; position := (0, 0)%Q; config := cfg |}.

(** Two nodes that feed each other. *)
Definition cyclic_pipeline : PipelineDefinition :=
  {| pd_id := "cyclic"; pd_name := "cyclic"; pd_description := ""; pd_version := 1;
     pd_nodes := [sample_node "A" "input" ∅; sample_node "B" "output" ∅];
     pd_connections := [ {| from := "A"; to := "B" |}; {| from := "B"; to := "A" |} ] |}.

(** A diamond with a side branch: the agent node [A] feeds [C] and, next to
    the text node [B], the output [O]. *)
Definition diamond_pipeline : PipelineDefinition :=
  {| pd_id := "diamond"; pd_name := "diamond"; pd_description := ""; pd_version := 1;
     pd_nodes := [ sample_node "I" "input" ∅;
                   sample_node "A" "agent" {[ "agent_id" := "a1" ]};
                   sample_node "B" "text" {[ "operation" := "reverse" ]};
                   sample_node "C" "text" {[ "operation" := "lowercase" ]};
                   sample_node "O" "output" ∅ ];
     pd_connections := [ {| from := "I"; to := "A" |}; {| from := "I"; to := "B" |};
                         {| from := "A"; to := "O" |}; {| from := "B"; to := "O" |};
                         {| from := "A"; to := "C" |} ] |}.

(** Collaborators whose language model always times out. *)
Definition failing_env : Env :=
  {| registry := {| agents := {[ "a1" := {| agent_tags := ∅; agent_model := "gpt-4o" |} ]};
                    servers := ∅ |};
     complete := fun _ _ _ => Err Timeout;
     callTool := fun _ _ _ p => Ok p;
     coupling_active := fun _ => true |}.

Definition empty_engine : Engine := {| pipelines := ∅; executions := [] |}.

(** ** More of the builder (PipelineBuilder.jsx) *)

(** [onSuccess] of [createPipelineMutation]: the id the server gave the new
    pipeline is kept in [currentPipelineId]. *)
Definition createSucceeded (pid : string) (b : Builder) : Builder :=
  {| pipelineName := pipelineName b; pipelineDescription := pipelineDescription b;
     nodes := nodes b; connections := connections b; selectedNode := selectedNode b;
     connectionMode := connectionMode b; connectionStart := connectionStart b;
     currentPipelineId := Some pid |}.

(** One click on an entry of the components palette: the clock reading and
    the two random draws of the [addNode] call it makes, and the type of
    the entry. *)
Record Addition := {
  add_now : N;
  add_rx : Q;
  add_ry : Q;
  add_type : string
}.

(** A series of [addNode] calls. *)
Definition addAll (nodeTypes : list NodeTypeInfo) (adds : list Addition) (b : Builder)
    : Builder :=
  foldl (fun s a => addNode nodeTypes (add_now a) (add_rx a) (add_ry a) (add_type a) s)
        b adds.

(** The node picked as start of a connection, if any, is a node of the
    pipeline. *)
Definition start_exists (b : Builder) : Prop :=
  ∀ s, connectionStart b = Some s → id s ∈ ids (nodes b).

(** The node shown in the properties panel, if any, is a node of the
    pipeline. *)
Definition selected_exists (b : Builder) : Prop :=
  ∀ s, selectedNode b = Some s → id s ∈ ids (nodes b).

(** The effects that are requests to the API to store the pipeline. *)
Definition is_save_request (e : Effect) : bool :=
  match e with
  | CreatePipeline _ | UpdatePipeline _ _ => true
  | _ => false
  end.

(** The events that replace the node list by one that may lack nodes it
    had: the X of the properties panel and "Load Test Pipeline". *)
Definition replaces_nodes (e : Event) : bool :=
  match e with
  | ERemoveSelected | ELoadTestPipeline => true
  | _ => false
  end.

(** A run in which the user removes a node or loads the test pipeline only
    while no start of a connection is picked. *)
Fixpoint careful (es : list Event) (b : Builder) : Prop :=
  match es with
  | [] => True
  | e :: es => (replaces_nodes e = true → connectionStart b = None) ∧ careful es (handle e b)
  end.

(** The copy of a node the properties panel holds agrees with a node of
    the pipeline on everything the panel shows: id, type, label and
    configuration. *)
Definition selected_in_sync (b : Builder) : Prop :=
  ∀ s, selectedNode b = Some s →
       ∃ n, n ∈ nodes b ∧ id n = id s ∧ type n = type s ∧ label n = label s ∧
            config n = config s.

(** Two states with the same graph: the same node ids and types in the
    same order and the same connections. *)
Definition same_graph (b b' : Builder) : Prop :=
  ids (nodes b') = ids (nodes b) ∧
  type <$> nodes b' = type <$> nodes b ∧
  connections b' = connections b.

(* ===================================================================== *)
(** * Part II: theorems                                                   *)
(* ===================================================================== *)

(** ** The pipeline builder *)

(** Closed decidable facts are settled by evaluation. *)
Ltac by_evaluation :=
  match goal with
  | |- ?P => let d := constr:(_ : Decision P) in
             apply (@bool_decide_unpack P d); vm_compute; exact I
  end.

Section builder_facts.

Implicit Types (b : Builder) (c : Connection) (n : Node).

Lemma connectNodes_nodes fromId toId b :
  nodes (connectNodes fromId toId b) = nodes b.
Proof.
  unfold connectNodes. case_bool_decide; [done|].
  by destruct (List.find _ _).
Qed.

(** What [connectNodes] stores: the old list, or the old list with the new
    pair at its end, the latter only for a pair that is no self-loop and was
    not stored. *)
Lemma connectNodes_connections fromId toId b :
  connections (connectNodes fromId toId b) = connections b ∨
  (fromId ≠ toId ∧ ({| from := fromId; to := toId |} ∉ connections b) ∧
   connections (connectNodes fromId toId b)
   = connections b ++ [{| from := fromId; to := toId |}]).
Proof.
  unfold connectNodes. case_bool_decide as Hne; [by left|].
  destruct (List.find _ _) as [c|] eqn:Hfind; [by left|].
  right. split_and!; [done| |done].
  intros Hin. apply list_elem_of_In in Hin.
  eapply find_none in Hfind; [|exact Hin]. simpl in Hfind.
  rewrite !bool_decide_eq_true_2 in Hfind by done. done.
Qed.

Lemma connectNodes_loop_free fromId toId b :
  loop_free (connections b) → loop_free (connections (connectNodes fromId toId b)).
Proof.
  intros Hlf. destruct (connectNodes_connections fromId toId b) as [->|(Hne & _ & ->)]; [done|].
  intros c [Hc|Hc]%elem_of_app; [by apply Hlf|].
  apply list_elem_of_singleton in Hc as ->. done.
Qed.

Lemma connectNodes_NoDup fromId toId b :
  NoDup (connections b) → NoDup (connections (connectNodes fromId toId b)).
Proof.
  intros Hnd. destruct (connectNodes_connections fromId toId b) as [->|(_ & Hnin & ->)]; [done|].
  apply NoDup_app. split_and!; [done| |apply NoDup_singleton].
  intros c Hc ->%list_elem_of_singleton. done.
Qed.

Lemma connectNodes_ends_exist fromId toId b :
  fromId ∈ ids (nodes b) → toId ∈ ids (nodes b) →
  ends_exist (nodes b) (connections b) →
  ends_exist (nodes (connectNodes fromId toId b)) (connections (connectNodes fromId toId b)).
Proof.
  intros Hf Ht He. rewrite connectNodes_nodes.
  destruct (connectNodes_connections fromId toId b) as [->|(_ & _ & ->)]; [done|].
  intros c [Hc|Hc]%elem_of_app; [by apply He|].
  apply list_elem_of_singleton in Hc as ->. done.
Qed.

Lemma loop_free_Forall (cs : list Connection) :
  loop_free cs ↔ Forall (λ c, from c ≠ to c) cs.
Proof. unfold loop_free. by rewrite Forall_forall. Qed.

Lemma filter_loop_free (P : Connection → Prop) `{!∀ c, Decision (P c)} (cs : list Connection) :
  loop_free cs → loop_free (filter P cs).
Proof. intros Hlf c [_ Hc]%list_elem_of_filter. by apply Hlf. Qed.

Lemma removeNode_connections nodeId b :
  connections (removeNode nodeId b)
  = filter (λ c, from c ≠ nodeId ∧ to c ≠ nodeId) (connections b).
Proof.
  unfold removeNode. destruct (selectedNode b) as [s|]; [|done]. by case_bool_decide.
Qed.

Lemma removeNode_nodes nodeId b :
  nodes (removeNode nodeId b) = filter (λ n, id n ≠ nodeId) (nodes b).
Proof.
  unfold removeNode. destruct (selectedNode b) as [s|]; [|done]. by case_bool_decide.
Qed.

Lemma addNode_connections nodeTypes now rx ry ty b :
  connections (addNode nodeTypes now rx ry ty b) = connections b.
Proof. unfold addNode. by destruct (List.find _ _). Qed.

(** The ids after [addNode]: one more at the end, read off the clock. *)
Lemma addNode_ids nodeTypes now rx ry ty b :
  ty ∈ nt_type <$> nodeTypes →
  ids (nodes (addNode nodeTypes now rx ry ty b)) = ids (nodes b) ++ [node_id_of_clock now].
Proof.
  intros Hty. unfold addNode.
  destruct (List.find _ _) as [nt|] eqn:Hfind.
  - simpl. unfold ids. by rewrite fmap_app.
  - apply list_elem_of_fmap in Hty as (nt & -> & Hnt).
    apply list_elem_of_In in Hnt. eapply find_none in Hfind; [|exact Hnt].
    simpl in Hfind. by rewrite bool_decide_eq_true_2 in Hfind.
Qed.

Lemma render_number_inj (m n : N) : render_number m = render_number n → m = n.
Proof.
  unfold render_number. intros Heq.
  assert (Some (N.to_uint m) = Some (N.to_uint n)) as Hu.
  { rewrite <- !NilEmpty.usu. by rewrite Heq. }
  injection Hu as Hu. by apply DecimalN.Unsigned.to_uint_inj.
Qed.

Lemma node_id_of_clock_inj (m n : N) : node_id_of_clock m = node_id_of_clock n → m = n.
Proof.
  unfold node_id_of_clock. intros Heq. apply render_number_inj.
  by simplify_eq/=.
Qed.

(** Ids stay pairwise distinct when the clock reading renders to an id
    that no node of the pipeline has. *)
Lemma addNode_fresh_clock nodeTypes now rx ry ty b :
  NoDup (ids (nodes b)) → node_id_of_clock now ∉ ids (nodes b) →
  NoDup (ids (nodes (addNode nodeTypes now rx ry ty b))).
Proof.
  intros Hnd Hfresh. unfold addNode. destruct (List.find _ _) as [nt|]; [|done].
  simpl. unfold ids. rewrite fmap_app. apply NoDup_app. split_and!; [done| |apply NoDup_singleton].
  intros x Hx ->%list_elem_of_singleton. done.
Qed.

(** Two additions that read the same clock value give two nodes with one
    id, whatever the pipeline was. *)
Lemma addNode_same_clock nodeTypes now rx ry rx' ry' ty ty' b :
  ty ∈ nt_type <$> nodeTypes → ty' ∈ nt_type <$> nodeTypes →
  ¬ NoDup (ids (nodes (addNode nodeTypes now rx' ry' ty'
                         (addNode nodeTypes now rx ry ty b)))).
Proof.
  intros Hty Hty'. rewrite !addNode_ids by done. rewrite <- app_assoc. simpl.
  intros Hnd. apply NoDup_app in Hnd as (_ & _ & Hnd).
  apply NoDup_cons in Hnd as [Hnd _]. apply Hnd. left.
Qed.

(** Every handler keeps the connection list free of self-loops and of
    repeated pairs. *)
Lemma handle_connections_invariant e b :
  loop_free (connections b) ∧ NoDup (connections b) →
  loop_free (connections (handle e b)) ∧ NoDup (connections (handle e b)).
Proof.
  intros [Hlf Hnd]. destruct e; simpl.
  - by rewrite addNode_connections.
  - destruct (nodes b !! i) as [node|]; [|done]. unfold nodeClick.
    destruct (connectionMode b); [|done].
    destruct (connectionStart b) as [start|]; [|done].
    case_bool_decide; [|done]. simpl.
    split; [by apply connectNodes_loop_free | by apply connectNodes_NoDup].
  - done.
  - destruct (selectedNode b) as [s|]; [|done]. rewrite removeNode_connections.
    split; [by apply filter_loop_free | by apply NoDup_filter].
  - destruct (connections b !! i) as [conn|]; [|done].
    destruct (_ && _); [|done]. simpl.
    split; [by apply filter_loop_free | by apply NoDup_filter].
  - destruct (connections b) as [|c0 cs] eqn:Hcs; [by rewrite Hcs|]. simpl.
    split; [intros c Hin; by apply elem_of_nil in Hin | constructor].
  - simpl. split; [apply loop_free_Forall|]; by_evaluation.
  - by destruct (selectedNode b).
  - destruct (selectedNode b) as [s|]; [|done]. by destruct (editable_key _ _).
  - by destruct (nodes b !! i).
Qed.

Lemma run_connections_invariant es b :
  loop_free (connections b) ∧ NoDup (connections b) →
  loop_free (connections (run es b)) ∧ NoDup (connections (run es b)).
Proof.
  revert b. induction es as [|e es IH]; intros b Hb; [done|].
  simpl. apply IH. by apply handle_connections_invariant.
Qed.

Lemma initialBuilder_connections_invariant :
  loop_free (connections initialBuilder) ∧ NoDup (connections initialBuilder).
Proof.
  split; [apply loop_free_Forall|]; by_evaluation.
Qed.

End builder_facts.

Section builder_claims.

Implicit Types (b : Builder) (c : Connection) (n : Node).

Lemma ends_exist_Forall (ns : list Node) (cs : list Connection) :
  ends_exist ns cs ↔ Forall (λ c, from c ∈ ids ns ∧ to c ∈ ids ns) cs.
Proof. unfold ends_exist. by rewrite Forall_forall. Qed.

Lemma filter_keeps_all {A} (P : A → Prop) `{!∀ x, Decision (P x)} (l : list A) :
  Forall P l → filter P l = l.
Proof.
  induction 1 as [|x l Hx _ IH]; [done|].
  by rewrite filter_cons_True, IH.
Qed.

Lemma filter_length_drop {A} (P : A → Prop) `{!∀ x, Decision (P x)} (x : A) (l : list A) :
  x ∈ l → ¬ P x → length (filter P l) < length l.
Proof.
  intros Hx HP. induction l as [|y l IH]; [by apply elem_of_nil in Hx|].
  rewrite filter_cons. apply elem_of_cons in Hx as [->|Hx].
  - rewrite decide_False by done. simpl. pose proof (length_filter P l). lia.
  - specialize (IH Hx). destruct (decide (P y)); simpl; lia.
Qed.

(** C6, as amended.  For every sequence of connect operations applied to a
    connection list without self-loop and without repeated pair, every
    stored connection has [from ≠ to] and no two stored connections have the
    same [(from, to)] pair; the nodes are left as they were; and both ends of
    every stored connection are ids of nodes when that held before and every
    connect operation was given ids of nodes ([connectNodes] makes no such
    check of its own). *)
Theorem connectAll_invariants (ops : list (string * string)) (b : Builder) :
  loop_free (connections b) → NoDup (connections b) →
  loop_free (connections (connectAll ops b)) ∧
  NoDup (connections (connectAll ops b)) ∧
  nodes (connectAll ops b) = nodes b ∧
  (ends_exist (nodes b) (connections b) →
   Forall (λ op, op.1 ∈ ids (nodes b) ∧ op.2 ∈ ids (nodes b)) ops →
   ends_exist (nodes (connectAll ops b)) (connections (connectAll ops b))).
Proof.
  revert b. induction ops as [|[f t] ops IH]; intros b Hlf Hnd; [done|].
  simpl.
  destruct (IH (connectNodes f t b)) as (IH1 & IH2 & IH3 & IH4);
    [by apply connectNodes_loop_free | by apply connectNodes_NoDup |].
  split_and!; [done|done| |].
  - by rewrite IH3, connectNodes_nodes.
  - intros He Hops. apply Forall_cons in Hops as [[Hf Ht] Hops]. simpl in Hf, Ht.
    apply IH4.
    + by apply connectNodes_ends_exist.
    + by rewrite connectNodes_nodes.
Qed.

Lemma connectAll_invariants_witness :
  let ops := [("node-1", "node-3"); ("node-2", "node-2"); ("node-1", "node-3")] in
  connections (connectAll ops initialBuilder)
  = defaultConnections ++ [{| from := "node-1"; to := "node-3" |}] ∧
  loop_free (connections (connectAll ops initialBuilder)) ∧
  NoDup (connections (connectAll ops initialBuilder)) ∧
  ends_exist (nodes (connectAll ops initialBuilder)) (connections (connectAll ops initialBuilder)).
Proof.
  intros ops.
  assert (loop_free (connections initialBuilder)) as Hlf
    by (apply loop_free_Forall; by_evaluation).
  assert (NoDup (connections initialBuilder)) as Hnd by by_evaluation.
  destruct (connectAll_invariants ops initialBuilder Hlf Hnd) as (H1 & H2 & _ & H4).
  split_and!; [reflexivity | exact H1 | exact H2 |].
  apply H4; [apply ends_exist_Forall|]; by_evaluation.
Defined.

(** C6, the claim as stated fails: a node picked as the start of a
    connection and removed before the connection is completed leaves a
    stored connection whose [from] is the id of no node; and [connectNodes]
    stores whatever pair of distinct ids it is given. *)
Lemma connection_to_removed_node :
  let b := run [ENodeClick 1; EToggleConnectMode; ENodeClick 1;
                ERemoveSelected; ENodeClick 1] initialBuilder in
  let b' := connectAll [("node-9", "node-1")] initialBuilder in
  ids (nodes b) = ["node-1"; "node-3"] ∧
  connections b = [{| from := "node-2"; to := "node-3" |}] ∧
  ¬ ends_exist (nodes b) (connections b) ∧
  ¬ ends_exist (nodes b') (connections b').
Proof.
  intros b b'. split_and!; [reflexivity | reflexivity | |].
  - rewrite ends_exist_Forall. by_evaluation.
  - rewrite ends_exist_Forall. by_evaluation.
Qed.

(** C9, evaluated on the failing input: two [addNode] calls that read the
    same value of [Date.now()] store two nodes with the same id. *)
Theorem addNode_twice_same_millisecond :
  let nodeTypes := [ {| nt_type := "text"; nt_label := "Text Transform";
                        nt_config_schema := Some [("operation", Some "uppercase")] |} ] in
  let b := run [EAddNode nodeTypes 1750000000000 (1 # 2) (1 # 2) "text";
                EAddNode nodeTypes 1750000000000 (1 # 4) (3 # 4) "text"] initialBuilder in
  ids (nodes b) = ["node-1"; "node-2"; "node-3";
                   "node-1750000000000"; "node-1750000000000"] ∧
  ¬ NoDup (ids (nodes b)).
Proof.
  intros nodeTypes b. split; [reflexivity|]. by_evaluation.
Qed.

(** C10.  For every node id present in the pipeline, after [removeNode(id)]
    no node has that id and no connection has it as [from] or [to]; the
    nodes and connections that remain are the other nodes and the
    connections between other nodes, each still there and in the order they
    had; when the id named a single node, the node list is the old one with
    exactly that entry taken out; and the name, description, saved id and
    connection mode of the pipeline are untouched. *)
Theorem removeNode_frame (b : Builder) (nodeId : string) :
  nodeId ∈ ids (nodes b) →
  (nodeId ∉ ids (nodes (removeNode nodeId b))) ∧
  (∀ c, c ∈ connections (removeNode nodeId b) → from c ≠ nodeId ∧ to c ≠ nodeId) ∧
  nodes (removeNode nodeId b) `sublist_of` nodes b ∧
  (∀ n, n ∈ nodes b → id n ≠ nodeId → n ∈ nodes (removeNode nodeId b)) ∧
  connections (removeNode nodeId b) `sublist_of` connections b ∧
  (∀ c, c ∈ connections b → from c ≠ nodeId → to c ≠ nodeId →
        c ∈ connections (removeNode nodeId b)) ∧
  (∀ l1 n l2, nodes b = l1 ++ n :: l2 → id n = nodeId →
        nodeId ∉ ids l1 → nodeId ∉ ids l2 →
        nodes (removeNode nodeId b) = l1 ++ l2) ∧
  length (nodes (removeNode nodeId b)) < length (nodes b) ∧
  pipelineName (removeNode nodeId b) = pipelineName b ∧
  pipelineDescription (removeNode nodeId b) = pipelineDescription b ∧
  currentPipelineId (removeNode nodeId b) = currentPipelineId b ∧
  connectionMode (removeNode nodeId b) = connectionMode b.
Proof.
  intros Hpresent. rewrite removeNode_nodes, removeNode_connections.
  split_and!.
  - unfold ids. intros (n & Hid & Hn)%list_elem_of_fmap.
    apply list_elem_of_filter in Hn as [Hn _]. done.
  - by intros c [Hc _]%list_elem_of_filter.
  - apply sublist_filter.
  - intros n Hn Hid. by apply list_elem_of_filter.
  - apply sublist_filter.
  - intros c Hc Hf Ht. by apply list_elem_of_filter.
  - intros l1 n l2 -> Hid H1 H2.
    rewrite filter_app, filter_cons_False by (by intros []).
    rewrite !filter_keeps_all; [done| |].
    + apply Forall_forall. intros x Hx Heq. apply H2. unfold ids.
      apply list_elem_of_fmap. eauto.
    + apply Forall_forall. intros x Hx Heq. apply H1. unfold ids.
      apply list_elem_of_fmap. eauto.
  - apply list_elem_of_fmap in Hpresent as (n & -> & Hn).
    apply (filter_length_drop (λ x, id x ≠ id n) n); [done|]. by intros Hne.
  - unfold removeNode. destruct (selectedNode b); [by case_bool_decide|done].
  - unfold removeNode. destruct (selectedNode b); [by case_bool_decide|done].
  - unfold removeNode. destruct (selectedNode b); [by case_bool_decide|done].
  - unfold removeNode. destruct (selectedNode b); [by case_bool_decide|done].
Qed.

Lemma removeNode_frame_witness :
  nodes (removeNode "node-2" initialBuilder)
  = [ {| id := "node-1"; type := "input"; label := "Input";
         position := (100, 200)%Q; config := ∅ |};
      {| id := "node-3"; type := "output"; label := "Output";
         position := (600, 200)%Q; config := ∅ |} ] ∧
  ("node-2" ∉ ids (nodes (removeNode "node-2" initialBuilder))) ∧
  (∀ c, c ∈ connections (removeNode "node-2" initialBuilder) →
        from c ≠ "node-2" ∧ to c ≠ "node-2").
Proof.
  assert ("node-2" ∈ ids (nodes initialBuilder)) as Hin by by_evaluation.
  destruct (removeNode_frame initialBuilder "node-2" Hin) as (H1 & H2 & _).
  split_and!; [reflexivity | exact H1 | exact H2].
Defined.

End builder_claims.

(** ** The validator's depth-first search *)

Section dfs_facts.

Variable cs : list Connection.

Lemma dfs_unfold fuel stack n fin :
  dfs cs (S fuel) stack n fin =
  if bool_decide (n ∈ stack) then DfsCycle n
  else if bool_decide (n ∈ fin) then DfsDone fin
  else match foldl (dfs_next cs fuel (n :: stack)) (DfsDone fin) (successors cs n) with
       | DfsDone fin' => DfsDone (n :: fin')
       | r => r
       end.
Proof. reflexivity. Qed.

Lemma dfs_all_unfold ns :
  dfs_all ns cs = foldl (dfs_next cs (dfs_fuel ns cs) []) (DfsDone []) ns.
Proof. reflexivity. Qed.

Lemma dfs_next_stuck fuel stack r ms :
  (∀ fin, r ≠ DfsDone fin) → foldl (dfs_next cs fuel stack) r ms = r.
Proof.
  intros Hr. induction ms as [|m ms IH]; [done|].
  simpl. destruct r as [fin0| |]; [by destruct (Hr fin0)|done|done].
Qed.

(** What one visit guarantees when it comes back without a cycle: the
    finished list is extended, stays a topological order, contains the
    visited node, and holds no node of the active stack. *)
Definition visit_ok (stack : list string) (fin fin' : list string) : Prop :=
  topo cs fin' ∧ (∃ l, fin' = l ++ fin) ∧ (∀ x, x ∈ stack → x ∉ fin').

Lemma dfs_next_fold fuel stack :
  (∀ m fin fin', topo cs fin → (∀ x, x ∈ stack → x ∉ fin) →
     dfs cs fuel stack m fin = DfsDone fin' → visit_ok stack fin fin' ∧ m ∈ fin') →
  ∀ ms fin fin', topo cs fin → (∀ x, x ∈ stack → x ∉ fin) →
     foldl (dfs_next cs fuel stack) (DfsDone fin) ms = DfsDone fin' →
     visit_ok stack fin fin' ∧ ∀ m, m ∈ ms → m ∈ fin'.
Proof.
  intros Hvisit ms. induction ms as [|m ms IH]; intros fin fin' Htopo Hstack Hfold.
  - simpl in Hfold. injection Hfold as <-. split; [|by intros ? ?%elem_of_nil].
    split_and!; [done|by exists []|done].
  - simpl in Hfold. destruct (dfs cs fuel stack m fin) as [fin1| |] eqn:Hm.
    + destruct (Hvisit _ _ _ Htopo Hstack Hm) as [(Ht1 & [l1 ->] & Hs1) Hin1].
      destruct (IH _ _ Ht1 Hs1 Hfold) as [(Ht2 & [l2 ->] & Hs2) Hin2].
      split; [split_and!; [done|exists (l2 ++ l1); by rewrite app_assoc|done]|].
      intros x [->|Hx]%elem_of_cons; [|by apply Hin2].
      apply elem_of_app. by right.
    + rewrite dfs_next_stuck in Hfold by done. done.
    + rewrite dfs_next_stuck in Hfold by done. done.
Qed.

Lemma dfs_visit fuel : ∀ stack n fin fin',
  topo cs fin → (∀ x, x ∈ stack → x ∉ fin) →
  dfs cs fuel stack n fin = DfsDone fin' → visit_ok stack fin fin' ∧ n ∈ fin'.
Proof.
  induction fuel as [|fuel IH]; intros stack n fin fin' Htopo Hstack Hdfs; [done|].
  rewrite dfs_unfold in Hdfs.
  case_bool_decide as Hn_stack; [done|].
  case_bool_decide as Hn_fin.
  { injection Hdfs as <-. split; [|done]. split_and!; [done|by exists []|done]. }
  destruct (foldl _ _ _) as [fin1| |] eqn:Hfold; [|done|done].
  injection Hdfs as <-.
  assert (∀ x, x ∈ n :: stack → x ∉ fin) as Hstack'.
  { intros x [->|Hx]%elem_of_cons; [done|by apply Hstack]. }
  destruct (dfs_next_fold fuel (n :: stack) (IH (n :: stack)) _ _ _ Htopo Hstack' Hfold)
    as [(Ht1 & [l1 ->] & Hs1) Hin1].
  split; [|left]. split_and!.
  - constructor; [done| |done]. apply Hs1. left.
  - by exists (n :: l1).
  - intros x Hx [->|Hx']%elem_of_cons; [done|].
    eapply Hs1; [|exact Hx']. by right.
Qed.

(** A search of the whole pipeline that reports no cycle has a topological
    order of all its nodes in hand. *)
Lemma dfs_all_topo ns fin :
  dfs_all ns cs = DfsDone fin → topo cs fin ∧ ∀ n, n ∈ ns → n ∈ fin.
Proof.
  rewrite dfs_all_unfold. intros Hfold.
  destruct (dfs_next_fold (dfs_fuel ns cs) [] (dfs_visit _ []) ns [] fin) as [(Ht & _) Hin];
    [constructor|by intros ? ?%elem_of_nil|done|done].
Qed.

Lemma topo_successors l n m :
  topo cs l → n ∈ l → m ∈ successors cs n → m ∈ l.
Proof.
  induction 1 as [|x l Ht IH Hx Hsucc]; [by intros ?%elem_of_nil|].
  intros [->|Hn]%elem_of_cons Hm; right; [by apply Hsucc|by apply IH].
Qed.

Lemma topo_app_r l1 l2 : topo cs (l1 ++ l2) → topo cs l2.
Proof.
  induction l1 as [|x l1 IH]; [done|]. simpl. inversion 1; subst. by apply IH.
Qed.

(** The fuel is never used up: the stack holds distinct vertices. *)
Lemma dfs_fuel_enough (U : list string) fuel : ∀ stack n fin,
  (∀ x m, m ∈ successors cs x → m ∈ U) →
  NoDup stack → (∀ x, x ∈ stack → x ∈ U) → n ∈ U →
  length U < fuel + length stack →
  dfs cs fuel stack n fin ≠ DfsOutOfFuel.
Proof.
  induction fuel as [|fuel IH]; intros stack n fin Hsucc Hnd Hsub Hn Hlen.
  - simpl in Hlen. assert (length stack ≤ length U); [|lia].
    apply submseteq_length, NoDup_submseteq; [done|]. intros x. apply Hsub.
  - rewrite dfs_unfold. case_bool_decide as Hn_stack; [done|].
    case_bool_decide; [done|].
    assert (∀ ms r, (∀ m, m ∈ ms → m ∈ U) → r ≠ DfsOutOfFuel →
              foldl (dfs_next cs fuel (n :: stack)) r ms ≠ DfsOutOfFuel) as Hfold.
    { induction ms as [|m ms IHms]; intros r Hms Hr; [done|]. simpl.
      apply IHms; [intros x Hx; apply Hms; by right|].
      destruct r as [fin0| |]; simpl; [|done|done].
      apply IH; [done|by constructor| |apply Hms; left|simpl; lia].
      intros x [->|Hx]%elem_of_cons; [done|by apply Hsub]. }
    specialize (Hfold (successors cs n) (DfsDone fin) (fun m Hm => Hsucc n m Hm)).
    destruct (foldl _ _ _); [done|done|]. by apply Hfold.
Qed.

Lemma dfs_all_fuel ns : dfs_all ns cs ≠ DfsOutOfFuel.
Proof.
  rewrite dfs_all_unfold.
  assert (∀ x m, m ∈ successors cs x → m ∈ ns ++ (to <$> cs)) as Hsucc.
  { intros x m Hm. apply elem_of_app. right. unfold successors in Hm.
    apply list_elem_of_fmap in Hm as (c & -> & Hc). apply list_elem_of_filter in Hc as [_ Hc].
    apply list_elem_of_fmap. eauto. }
  assert (∀ ms r, (∀ m, m ∈ ms → m ∈ ns) → r ≠ DfsOutOfFuel →
            foldl (dfs_next cs (dfs_fuel ns cs) []) r ms ≠ DfsOutOfFuel) as Hfold.
  { induction ms as [|m ms IHms]; intros r Hms Hr; [done|]. simpl.
    apply IHms; [intros x Hx; apply Hms; by right|].
    destruct r as [fin0| |]; simpl; [|done|done].
    apply (dfs_fuel_enough (ns ++ (to <$> cs))); [done|constructor|by intros ? ?%elem_of_nil| |].
    - apply elem_of_app. left. apply Hms. left.
    - unfold dfs_fuel. simpl. lia. }
  by apply Hfold.
Qed.

End dfs_facts.

(** ** The connection graph *)

Section graph_facts.

Variable cs : list Connection.

Lemma elem_of_predecessors p n :
  p ∈ predecessors cs n ↔ {| from := p; to := n |} ∈ cs.
Proof.
  unfold predecessors. rewrite list_elem_of_fmap. split.
  - intros ([f t] & -> & [Ht Hc]%list_elem_of_filter). simpl in *. by subst.
  - intros Hc. exists {| from := p; to := n |}. split; [done|].
    by apply list_elem_of_filter.
Qed.

Lemma elem_of_successors n m :
  m ∈ successors cs n ↔ {| from := n; to := m |} ∈ cs.
Proof.
  unfold successors. rewrite list_elem_of_fmap. split.
  - intros ([f t] & -> & [Hf Hc]%list_elem_of_filter). simpl in *. by subst.
  - intros Hc. exists {| from := n; to := m |}. split; [done|].
    by apply list_elem_of_filter.
Qed.

Lemma successors_predecessors n m : m ∈ successors cs n ↔ n ∈ predecessors cs m.
Proof. by rewrite elem_of_successors, elem_of_predecessors. Qed.

Lemma NoDup_predecessors n : NoDup cs → NoDup (predecessors cs n).
Proof.
  intros Hnd. unfold predecessors. apply NoDup_fmap_2_strong; [|by apply NoDup_filter].
  intros [f1 t1] [f2 t2] [H1 _]%list_elem_of_filter [H2 _]%list_elem_of_filter Heq.
  simpl in *. by subst.
Qed.

Lemma NoDup_successors n : NoDup cs → NoDup (successors cs n).
Proof.
  intros Hnd. unfold successors. apply NoDup_fmap_2_strong; [|by apply NoDup_filter].
  intros [f1 t1] [f2 t2] [H1 _]%list_elem_of_filter [H2 _]%list_elem_of_filter Heq.
  simpl in *. by subst.
Qed.

Lemma linked_snoc p a b :
  linked cs (p ++ [a]) → {| from := a; to := b |} ∈ cs → linked cs ((p ++ [a]) ++ [b]).
Proof.
  induction p as [|x p IH]; intros Hl Hab; [done|].
  destruct p as [|y p]; [simpl in *; tauto|].
  simpl in Hl. destruct Hl as [Hxy Hl]. split; [done|]. by apply IH.
Qed.

Lemma head_snoc (p : list string) a b : head ((p ++ [a]) ++ [b]) = head (p ++ [a]).
Proof. by destruct p. Qed.

End graph_facts.

(** Counting with one element struck off. *)
Lemma filter_length_strike {A} `{!EqDecision A} (P : A → Prop) `{!∀ x, Decision (P x)}
    (n : A) (l : list A) :
  NoDup l → P n →
  length (filter P l)
  = (length (filter (λ x, P x ∧ x ≠ n) l) + (if bool_decide (n ∈ l) then 1 else 0))%nat.
Proof.
  intros Hnd Hn. induction Hnd as [|x l Hx Hnd IH]; [done|].
  rewrite !filter_cons. destruct (decide (x = n)) as [->|Hne].
  - rewrite decide_True by done. rewrite decide_False by (by intros [_ ?]).
    rewrite bool_decide_eq_true_2 by left. simpl. rewrite IH.
    rewrite bool_decide_eq_false_2 by done. lia.
  - assert (bool_decide (n ∈ x :: l) = bool_decide (n ∈ l)) as ->.
    { apply bool_decide_ext. rewrite elem_of_cons.
      split; [intros [Heq|Hin]; [by destruct Hne|done] | by right]. }
    destruct (decide (P x)) as [HP|HP].
    + rewrite decide_True by done. simpl. by rewrite IH.
    + rewrite decide_False by (by intros [? _]). by rewrite IH.
Qed.

Lemma filter_ext_elem {A} (P Q : A → Prop) `{!∀ x, Decision (P x)} `{!∀ x, Decision (Q x)}
    (l : list A) :
  (∀ x, x ∈ l → P x ↔ Q x) → filter P l = filter Q l.
Proof.
  induction l as [|x l IH]; intros Heq; [done|].
  rewrite !filter_cons. rewrite IH by (intros y Hy; apply Heq; by right).
  destruct (decide (P x)) as [HP|HP], (decide (Q x)) as [HQ|HQ]; try done.
  - destruct HQ. apply Heq; [left|done].
  - destruct HP. apply Heq; [left|done].
Qed.

(** ** Releasing the successors of a finished node *)

Lemma release_one_fold (ms : list string) : ∀ (deg : gmap string Z) (rdy : list string),
  NoDup ms →
  (∀ m, (foldl release_one (deg, rdy) ms).1 !! m
        = if bool_decide (m ∈ ms) then Some (default 0 (deg !! m) - 1)%Z else deg !! m) ∧
  (foldl release_one (deg, rdy) ms).2
  = rdy ++ filter (λ m, (default 0 (deg !! m) - 1)%Z = 0%Z) ms.
Proof.
  induction ms as [|m ms IH]; intros deg rdy Hnd.
  - simpl. by rewrite app_nil_r.
  - apply NoDup_cons in Hnd as [Hm Hnd]. simpl. unfold release_one at 2 4. simpl.
    destruct (IH (<[m:=(default 0 (deg !! m) - 1)%Z]> deg)
                 (if bool_decide ((default 0 (deg !! m) - 1)%Z = 0%Z)
                  then rdy ++ [m] else rdy) Hnd) as [IH1 IH2].
    split.
    + intros x. rewrite IH1. destruct (decide (x = m)) as [->|Hne].
      * rewrite bool_decide_eq_false_2 by done.
        rewrite bool_decide_eq_true_2 by left. by rewrite lookup_insert_eq.
      * rewrite lookup_insert_ne by done.
        destruct (decide (x ∈ ms)).
        -- rewrite !bool_decide_eq_true_2; [done|by right|done].
        -- rewrite !bool_decide_eq_false_2; [done| |done].
           by intros [?|?]%elem_of_cons.
    + rewrite IH2, filter_cons.
      rewrite (filter_ext_elem
                 (λ x, (default 0 (<[m:=(default 0 (deg !! m) - 1)%Z]> deg !! x) - 1)%Z = 0%Z)
                 (λ x, (default 0 (deg !! x) - 1)%Z = 0%Z)).
      * case_bool_decide; destruct (decide _); try done. by rewrite <- app_assoc.
      * intros x Hx. rewrite lookup_insert_ne; [done|]. by intros ->.
Qed.

(** ** The states of the nodes *)

Lemma status_of_insert (m : gmap string NodeState) n st x :
  status_of (<[n := st]> m) x = if decide (x = n) then Some (status st) else status_of m x.
Proof.
  unfold status_of. destruct (decide (x = n)) as [->|Hne].
  - by rewrite lookup_insert_eq.
  - by rewrite lookup_insert_ne.
Qed.

Lemma pend_not_finished (m : gmap string NodeState) n : pend m n → ¬ finished m n.
Proof.
  unfold pend, finished. intros Hp (x & Hx & Ht). rewrite Hp in Hx.
  injection Hx as <-. by destruct Ht as [?|[?|?]].
Qed.

Lemma executed_terminal x : executed x → terminal x.
Proof. intros [->| ->]; [by left|by right; left]. Qed.

Lemma state_of_outcome_executed o : executed (status (state_of_outcome o)).
Proof. destruct o; [by left|by right]. Qed.

Lemma omap_nil {A B} (f : A → option B) (l : list A) :
  omap f l = [] ↔ ∀ x, x ∈ l → f x = None.
Proof.
  induction l as [|a l IH]; simpl.
  - split; [by intros _ ? ?%elem_of_nil|done].
  - destruct (f a) eqn:Hfa.
    + split; [done|]. intros H. specialize (H a (list_elem_of_here _ _)). congruence.
    + rewrite IH. split.
      * intros H x [->|Hx]%elem_of_cons; [done|by apply H].
      * intros H x Hx. apply H. by right.
Qed.

Section node_input_facts.

Variables (input : Payload) (m : gmap string NodeState) (cs : list Connection).

Hypothesis Hout : ∀ n st, m !! n = Some st → status st = Succeeded → is_Some (output st).

Lemma succeeded_output_None p :
  succeeded_output m p = None ↔ status_of m p ≠ Some Succeeded.
Proof.
  unfold succeeded_output, status_of. destruct (m !! p) as [st|] eqn:Hp; simpl; [|done].
  case_bool_decide as Hst.
  - destruct (Hout _ _ Hp Hst) as [o ->]. split; [done|]. intros H. by rewrite Hst in H.
  - split; [|done]. intros _ [=]. done.
Qed.

(** A node is skipped exactly when it has predecessors and none of them
    succeeded. *)
Lemma node_input_None n :
  node_input input m cs n = None ↔
  predecessors cs n ≠ [] ∧ ∀ p, p ∈ predecessors cs n → status_of m p ≠ Some Succeeded.
Proof.
  unfold node_input. destruct (predecessors cs n) as [|p1 [|p2 ps]].
  - split; [done|]. by intros [? _].
  - rewrite succeeded_output_None. split.
    + intros H. split; [done|]. by intros p ->%list_elem_of_singleton.
    + intros [_ H]. apply H. left.
  - destruct (omap _ _) as [|o outs] eqn:Homap.
    + split; [|done]. intros _. split; [done|]. intros p Hp.
      apply succeeded_output_None.
      pose proof (proj1 (omap_nil _ _) Homap p Hp) as Hnone. simpl in Hnone.
      by destruct (succeeded_output m p).
    + split; [done|]. intros [_ H].
      assert (omap (λ p, (λ o, (p, o)) <$> succeeded_output m p) (p1 :: p2 :: ps) = []) as Hnil.
      { apply omap_nil. intros p Hp. apply H, succeeded_output_None in Hp. by rewrite Hp. }
      congruence.
Qed.

Lemma node_input_Some n inp :
  node_input input m cs n = Some inp →
  predecessors cs n = [] ∨
  ∃ p, p ∈ predecessors cs n ∧ status_of m p = Some Succeeded.
Proof.
  intros Hin. destruct (decide (predecessors cs n = [])) as [|Hne]; [by left|right].
  destruct (decide (Exists (λ p, status_of m p = Some Succeeded) (predecessors cs n)))
    as [Hex|Hnex].
  - apply Exists_exists in Hex as (p & Hp & Hs). eauto.
  - assert (node_input input m cs n = None) as Hnone; [|congruence].
    apply node_input_None. split; [done|]. intros p Hp Hs. apply Hnex.
    apply Exists_exists. eauto.
Qed.

End node_input_facts.

(** ** The initial state of a run *)

Lemma lookup_const_map {V} (l : list string) (v : V) (n : string) :
  (list_to_map ((λ i, (i, v)) <$> l) : gmap string V) !! n
  = if bool_decide (n ∈ l) then Some v else None.
Proof.
  induction l as [|a l IH]; [done|].
  rewrite fmap_cons, list_to_map_cons. destruct (decide (n = a)) as [->|Hne].
  - rewrite lookup_insert_eq. by rewrite bool_decide_eq_true_2 by left.
  - rewrite lookup_insert_ne by done. rewrite IH.
    apply (f_equal (λ b : bool, if b then Some v else None)), bool_decide_ext.
    rewrite elem_of_cons. split; [by right|]. by intros [?|?].
Qed.

Lemma predecessors_cons c (cs : list Connection) n :
  predecessors (c :: cs) n
  = if bool_decide (to c = n) then from c :: predecessors cs n else predecessors cs n.
Proof.
  unfold predecessors. rewrite filter_cons.
  case_bool_decide; destruct (decide _); done.
Qed.

Lemma build_in_degree_fold (cs : list Connection) : ∀ (m0 : gmap string Z) n k,
  m0 !! n = Some k →
  foldl (λ m c, <[to c := (default 0 (m !! to c) + 1)%Z]> m) m0 cs !! n
  = Some (k + Z.of_nat (length (predecessors cs n)))%Z.
Proof.
  induction cs as [|c cs IH]; intros m0 n k Hk.
  - simpl. rewrite Hk. f_equal. lia.
  - simpl. rewrite predecessors_cons. case_bool_decide as Hc.
    + rewrite (IH _ n (k + 1)%Z).
      * f_equal. simpl. lia.
      * rewrite Hc, lookup_insert_eq, Hk. done.
    + rewrite (IH _ n k); [done|]. by rewrite lookup_insert_ne.
Qed.

Lemma build_in_degree_lookup (l : list string) (cs : list Connection) n :
  n ∈ l →
  build_in_degree l cs !! n = Some (Z.of_nat (length (predecessors cs n))).
Proof.
  intros Hn. unfold build_in_degree.
  rewrite (build_in_degree_fold cs _ n 0%Z); [f_equal; lia|].
  rewrite lookup_const_map. by rewrite bool_decide_eq_true_2.
Qed.

(** ** The run of a pipeline *)

Section run_facts.

Context (env : Env) (def : PipelineDefinition) (input : Payload).

Local Abbreviation ns := (ids (pd_nodes def)).
Local Abbreviation cs := (pd_connections def).

Hypothesis Hids : NoDup ns.
Hypothesis Hends : Forall (λ c, from c ∈ ns ∧ to c ∈ ns) cs.
Hypothesis Hcs : NoDup cs.
Hypothesis Htypes : Forall (λ n, is_Some (node_type_of (type n))) (pd_nodes def).

Lemma pred_is_node p n : p ∈ predecessors cs n → p ∈ ns.
Proof.
  intros Hp%elem_of_predecessors. rewrite Forall_forall in Hends.
  by destruct (Hends _ Hp) as [? _].
Qed.

Lemma succ_is_node n m : m ∈ successors cs n → m ∈ ns.
Proof.
  intros Hm%elem_of_successors. rewrite Forall_forall in Hends.
  by destruct (Hends _ Hm) as [_ ?].
Qed.

Lemma find_node_Some n :
  n ∈ ns → ∃ node, find_node (pd_nodes def) n = Some node ∧ node ∈ pd_nodes def.
Proof.
  intros (node & -> & Hnode)%list_elem_of_fmap. unfold find_node.
  destruct (List.find _ _) as [node'|] eqn:Hfind.
  - exists node'. split; [done|]. apply find_some in Hfind as [Hin _].
    by apply list_elem_of_In.
  - apply list_elem_of_In in Hnode. eapply find_none in Hfind; [|exact Hnode].
    simpl in Hfind. by rewrite bool_decide_eq_true_2 in Hfind.
Qed.

Lemma run_node_Some node inp : node ∈ pd_nodes def → is_Some (run_node env node inp).
Proof.
  intros Hnode. rewrite Forall_forall in Htypes.
  destruct (Htypes _ Hnode) as [t Ht]. unfold run_node. rewrite Ht.
  destruct t; try done.
  - by destruct (_ ≫= _).
  - by destruct (_ ≫= _).
  - destruct (config node !! "server_name"); [|done].
    destruct (config node !! "tool_name"); [|done].
    by destruct (coupling_active env _).
Qed.

(** A ready node of the definition always reaches a terminal state: it is
    skipped, or its executor is invoked once, on the input derived from its
    predecessors. *)
Lemma exec_node_finish s n :
  n ∈ ns →
  ∃ st log,
    exec_node env def input s n = Some (finish cs s n st log) ∧
    ((node_input input (nodeStates s) cs n = None ∧ st = skippedState ∧ log = calls s) ∨
     (∃ inp o, node_input input (nodeStates s) cs n = Some inp ∧
               st = state_of_outcome o ∧ log = calls s ++ [(n, inp)])).
Proof.
  intros Hn. destruct (find_node_Some n Hn) as (node & Hfind & Hnode).
  unfold exec_node. rewrite Hfind.
  destruct (node_input _ _ _ _) as [inp|] eqn:Hin.
  - destruct (run_node_Some node inp Hnode) as [o Ho]. rewrite Ho.
    eexists _, _. split; [done|]. right. by exists inp, o.
  - eexists _, _. split; [done|]. by left.
Qed.

Lemma init_state_inv : run_inv ns cs (init_state def).
Proof.
  assert (∀ n, status_of (nodeStates (init_state def)) n
               = if bool_decide (n ∈ ns) then Some Pending else None) as Hst.
  { intros n. unfold status_of, init_state. simpl. rewrite lookup_const_map.
    by case_bool_decide. }
  assert (∀ n, ¬ finished (nodeStates (init_state def)) n) as Hnf.
  { intros n (x & Hx & Ht). rewrite Hst in Hx. case_bool_decide; [|done].
    injection Hx as <-. by destruct Ht as [?|[?|?]]. }
  assert (∀ n, filter (pend (nodeStates (init_state def))) (predecessors cs n)
               = predecessors cs n) as Hall.
  { intros n. apply filter_keeps_all, Forall_forall. intros p Hp%pred_is_node.
    unfold pend. rewrite Hst. by rewrite bool_decide_eq_true_2. }
  split.
  - intros n Hn. left. unfold pend. rewrite Hst. by rewrite bool_decide_eq_true_2.
  - intros n Hn. rewrite Hall. by apply build_in_degree_lookup.
  - intros n. unfold init_state at 1. simpl. rewrite list_elem_of_filter.
    split.
    + intros [Hdeg Hn]. split_and!; [done| |done].
      unfold pend. rewrite Hst. by rewrite bool_decide_eq_true_2.
    + by intros (Hn & _ & Hdeg).
  - simpl. by apply NoDup_filter.
  - intros n Hn. by destruct (Hnf n).
  - intros n st Hn Hs. exfalso.
    assert (status_of (nodeStates (init_state def)) n = Some Succeeded) as Hsn.
    { unfold status_of. by rewrite Hn; simpl; rewrite Hs. }
    rewrite Hst in Hsn. by case_bool_decide.
  - intros n. simpl. split; [by intros ?%elem_of_nil|].
    intros (x & Hx & Hex). rewrite Hst in Hx. case_bool_decide; [|done].
    injection Hx as <-. by destruct Hex.
  - intros n x Hx Hex. rewrite Hst in Hx. case_bool_decide; [|done].
    injection Hx as <-. by destruct Hex.
Qed.

(** The step: what changes when the ready node [n] finishes in state [st]. *)
Section finish_facts.

Variables (s : ExecState) (n : string) (st : NodeState) (log : list (string * Payload)).

Hypothesis Hinv : run_inv ns cs s.
Hypothesis Hready : n ∈ ready s.
Hypothesis Hterminal : terminal (status st).

Local Abbreviation s' := (finish cs s n st log).

Lemma ready_is_node : n ∈ ns.
Proof. by apply (inv_ready _ _ _ Hinv) in Hready as (? & _). Qed.

Lemma ready_pend : pend (nodeStates s) n.
Proof. by apply (inv_ready _ _ _ Hinv) in Hready as (_ & ? & _). Qed.

Lemma ready_no_pending_pred p : p ∈ predecessors cs n → ¬ pend (nodeStates s) p.
Proof.
  intros Hp Hpend. apply (inv_ready _ _ _ Hinv) in Hready as (Hn & _ & Hdeg).
  rewrite (inv_deg _ _ _ Hinv) in Hdeg by done.
  assert (p ∈ filter (pend (nodeStates s)) (predecessors cs n)) as Hin
    by by apply list_elem_of_filter.
  destruct (filter _ _); [by apply elem_of_nil in Hin|]. simpl in Hdeg.
  injection Hdeg. lia.
Qed.

Lemma finish_status x :
  status_of (nodeStates s') x = if decide (x = n) then Some (status st) else status_of (nodeStates s) x.
Proof. apply status_of_insert. Qed.

Lemma finish_status_ne x :
  finished (nodeStates s) x → status_of (nodeStates s') x = status_of (nodeStates s) x.
Proof.
  intros Hfin. rewrite finish_status. destruct (decide (x = n)) as [->|]; [|done].
  by destruct (pend_not_finished _ _ ready_pend).
Qed.

Lemma finish_pend x : pend (nodeStates s') x ↔ pend (nodeStates s) x ∧ x ≠ n.
Proof.
  unfold pend. rewrite finish_status. destruct (decide (x = n)) as [->|Hne].
  - split; [|by intros [_ ?]]. intros [= Hp]. rewrite Hp in Hterminal.
    by destruct Hterminal as [?|[?|?]].
  - split; [done|by intros [? _]].
Qed.

Lemma finish_finished x : finished (nodeStates s') x ↔ finished (nodeStates s) x ∨ x = n.
Proof.
  unfold finished. rewrite finish_status. destruct (decide (x = n)) as [->|Hne].
  - split; [by right|]. intros _. by exists (status st).
  - split; [by left|]. by intros [?|?].
Qed.

Lemma finish_in_degree x :
  inDegree s' !! x
  = if bool_decide (x ∈ successors cs n)
    then Some (default 0 (inDegree s !! x) - 1)%Z else inDegree s !! x.
Proof.
  unfold finish, release. simpl.
  by destruct (release_one_fold (successors cs n) (inDegree s)
                 (filter (λ m, m ≠ n) (ready s)) (NoDup_successors cs n Hcs)) as [-> _].
Qed.

Lemma finish_ready :
  ready s' = filter (λ m, m ≠ n) (ready s)
             ++ filter (λ m, (default 0 (inDegree s !! m) - 1)%Z = 0%Z) (successors cs n).
Proof.
  unfold finish, release. simpl.
  by destruct (release_one_fold (successors cs n) (inDegree s)
                 (filter (λ m, m ≠ n) (ready s)) (NoDup_successors cs n Hcs)) as [_ ->].
Qed.

(** The pending predecessors of a node, counted before and after. *)
Lemma finish_count x :
  length (filter (pend (nodeStates s)) (predecessors cs x))
  = (length (filter (pend (nodeStates s')) (predecessors cs x))
     + (if bool_decide (x ∈ successors cs n) then 1 else 0))%nat.
Proof.
  rewrite (filter_length_strike (pend (nodeStates s)) n);
    [|by apply NoDup_predecessors|apply ready_pend].
  rewrite (filter_ext_elem (pend (nodeStates s')) (λ p, pend (nodeStates s) p ∧ p ≠ n))
    by (intros; apply finish_pend).
  f_equal. apply (f_equal (λ b : bool, if b then 1%nat else 0%nat)), bool_decide_ext.
  symmetry. apply successors_predecessors.
Qed.

Lemma successor_not_ready x : x ∈ successors cs n → x ∉ ready s.
Proof.
  intros Hx Hrx. apply (inv_ready _ _ _ Hinv) in Hrx as (Hxn & _ & Hdeg).
  rewrite (inv_deg _ _ _ Hinv) in Hdeg by done. rewrite finish_count in Hdeg.
  rewrite bool_decide_eq_true_2 in Hdeg by done. injection Hdeg. lia.
Qed.

Lemma successor_pend x : x ∈ successors cs n → pend (nodeStates s) x ∧ x ≠ n.
Proof.
  intros Hx. assert (x ∈ ns) as Hxn by by eapply succ_is_node.
  assert (n ∈ predecessors cs x) as Hnx by by apply successors_predecessors.
  split.
  - destruct (inv_dom _ _ _ Hinv x Hxn) as [?|Hfin]; [done|].
    destruct (inv_decided _ _ _ Hinv x Hfin) as (Hpreds & _).
    by destruct (pend_not_finished _ _ ready_pend (Hpreds n Hnx)).
  - intros ->. by apply (ready_no_pending_pred n Hnx), ready_pend.
Qed.

(** The invariant survives the step. *)
Lemma finish_inv :
  (node_input input (nodeStates s) cs n = None ∧ st = skippedState ∧ log = calls s) ∨
  (∃ inp o, node_input input (nodeStates s) cs n = Some inp ∧
            st = state_of_outcome o ∧ log = calls s ++ [(n, inp)]) →
  run_inv ns cs s'.
Proof.
  intros Hcase. split.
  - (* every node is pending or finished *)
    intros x Hx. destruct (decide (x = n)) as [->|Hne].
    + right. apply finish_finished. by right.
    + destruct (inv_dom _ _ _ Hinv x Hx) as [Hp|Hf].
      * left. by apply finish_pend.
      * right. apply finish_finished. by left.
  - (* the in-degree counts the pending predecessors *)
    intros x Hx. rewrite finish_in_degree.
    pose proof (finish_count x) as Hcount.
    rewrite (inv_deg _ _ _ Hinv) by done.
    destruct (bool_decide (x ∈ successors cs n)); simpl in *; f_equal; lia.
  - (* the ready set *)
    intros x. rewrite finish_ready, elem_of_app, !list_elem_of_filter.
    rewrite finish_pend, finish_in_degree. split.
    + intros [[Hne Hrx]|[Hzero Hx]].
      * pose proof Hrx as Hrx'. apply (inv_ready _ _ _ Hinv) in Hrx' as (Hxn & Hxp & Hdeg).
        split_and!; [done|done|done|].
        rewrite bool_decide_eq_false_2; [done|].
        intros Hx. by apply (successor_not_ready x).
      * destruct (successor_pend x Hx) as [Hxp Hne].
        split_and!; [by eapply succ_is_node|done|done|].
        rewrite bool_decide_eq_true_2 by done. by rewrite Hzero.
    + intros (Hxn & [Hxp Hne] & Hdeg). case_bool_decide as Hx.
      * right. split; [|done]. by injection Hdeg.
      * left. split; [done|]. by apply (inv_ready _ _ _ Hinv).
  - (* no node is ready twice *)
    rewrite finish_ready. apply NoDup_app. split_and!.
    + apply NoDup_filter, (inv_ready_nodup _ _ _ Hinv).
    + intros x [_ Hrx]%list_elem_of_filter [_ Hx]%list_elem_of_filter.
      by apply (successor_not_ready x).
    + by apply NoDup_filter, NoDup_successors.
  - (* what was decided for a finished node *)
    intros x [Hfx| ->]%finish_finished.
    + destruct (inv_decided _ _ _ Hinv x Hfx) as (Hpreds & Hskip & Hexec).
      unfold decided. rewrite (finish_status_ne x Hfx). split_and!.
      * intros p Hp. apply finish_finished. left. by apply Hpreds.
      * intros Hs. destruct (Hskip Hs) as [Hne Hnone]. split; [done|].
        intros p Hp. rewrite (finish_status_ne p) by by apply Hpreds. by apply Hnone.
      * intros y Hy Hey. destruct (Hexec y Hy Hey) as [?|(p & Hp & Hps)]; [by left|right].
        exists p. split; [done|]. by rewrite (finish_status_ne p) by by apply Hpreds.
    + assert (∀ p, p ∈ predecessors cs n → finished (nodeStates s) p) as Hpreds.
      { intros p Hp. destruct (inv_dom _ _ _ Hinv p (pred_is_node p n Hp)) as [Hpp|?]; [|done].
        by destruct (ready_no_pending_pred p Hp). }
      unfold decided. rewrite finish_status, decide_True by done. split_and!.
      * intros p Hp. apply finish_finished. left. by apply Hpreds.
      * intros [= Hs]. destruct Hcase as [(Hnone & _ & _)|(inp & o & _ & -> & _)].
        -- apply node_input_None in Hnone as [Hne Hnone]; [|apply (inv_output _ _ _ Hinv)].
           split; [done|]. intros p Hp.
           rewrite (finish_status_ne p) by by apply Hpreds. by apply Hnone.
        -- by destruct o.
      * intros y [= <-] Hey. destruct Hcase as [(_ & -> & _)|(inp & o & Hin & _ & _)].
        -- by destruct Hey.
        -- apply node_input_Some in Hin as [?|(p & Hp & Hps)];
             [by left| |apply (inv_output _ _ _ Hinv)].
           right. exists p. split; [done|].
           by rewrite (finish_status_ne p) by by apply Hpreds.
  - (* a node that succeeded has an output *)
    intros x stx. simpl. destruct (decide (x = n)) as [->|Hne].
    + rewrite lookup_insert_eq. intros [= <-] Hs.
      destruct Hcase as [(_ & -> & _)|(inp & o & _ & -> & _)]; [done|].
      destruct o; [by eexists|done].
    + rewrite lookup_insert_ne by done. apply (inv_output _ _ _ Hinv).
  - (* the log holds exactly the nodes whose executor ran *)
    intros x. rewrite finish_status.
    destruct Hcase as [(_ & -> & ->)|(inp & o & _ & -> & ->)].
    + simpl. rewrite (inv_calls _ _ _ Hinv). destruct (decide (x = n)) as [->|Hne]; [|done].
      split.
      * intros (y & Hy & Hey). pose proof ready_pend as Hp. unfold pend in Hp.
        rewrite Hp in Hy. injection Hy as <-. by destruct Hey.
      * intros (y & [= <-] & Hey). by destruct Hey.
    + simpl. rewrite fmap_app, elem_of_app, (inv_calls _ _ _ Hinv). simpl.
      rewrite list_elem_of_singleton. destruct (decide (x = n)) as [->|Hne].
      * split; [|by right]. intros _. eexists. split; [done|].
        apply state_of_outcome_executed.
      * split; [by intros [?|?]|by left].
  - (* every executed node has a path of succeeded nodes from a root *)
    assert (∀ q, status_of (nodeStates s) q = Some Succeeded →
                 status_of (nodeStates s') q = Some Succeeded) as Hkeep.
    { intros q Hq. rewrite finish_status_ne; [done|]. exists Succeeded. split; [done|by left]. }
    intros x y. rewrite finish_status. destruct (decide (x = n)) as [->|Hne].
    + intros [= <-] Hey. destruct Hcase as [(_ & -> & _)|(inp & o & Hin & _ & _)].
      { by destruct Hey. }
      apply node_input_Some in Hin as [Hroot|(p & Hp & Hps)];
        [| |apply (inv_output _ _ _ Hinv)].
      * exists []. split; [|by intros ? ?%elem_of_nil].
        split; [done|]. by exists n.
      * destruct (inv_path _ _ _ Hinv p Succeeded Hps) as (pp & [Hl (r & Hr & Hrr)] & Hall);
          [by left|].
        exists (pp ++ [p]). split; [split|].
        -- apply linked_snoc; [done|]. by apply elem_of_predecessors.
        -- exists r. split; [|done]. by rewrite head_snoc.
        -- intros q [Hq| ->%list_elem_of_singleton]%elem_of_app; apply Hkeep; [by apply Hall|done].
    + intros Hy Hey. destruct (inv_path _ _ _ Hinv x y Hy Hey) as (pp & Hrp & Hall).
      exists pp. split; [done|]. intros q Hq. by apply Hkeep, Hall.
Qed.

End finish_facts.

Lemma finish_pending_count s n st log :
  run_inv ns cs s → n ∈ ready s → terminal (status st) →
  length (filter (pend (nodeStates s)) ns)
  = S (length (filter (pend (nodeStates (finish cs s n st log))) ns)).
Proof.
  intros Hinv Hready Hterminal.
  rewrite (filter_length_strike (pend (nodeStates s)) n);
    [|done|by apply (ready_pend s n)].
  rewrite (filter_ext_elem (pend (nodeStates (finish cs s n st log)))
             (λ p, pend (nodeStates s) p ∧ p ≠ n))
    by (intros; by apply finish_pend).
  rewrite bool_decide_eq_true_2 by by apply (ready_is_node s n). lia.
Qed.

(** One step of the run, seen from outside. *)
Lemma step_finish s s1 :
  run_inv ns cs s → step env def input s s1 →
  ∃ n st log, n ∈ ready s ∧ terminal (status st) ∧ s1 = finish cs s n st log ∧
              run_inv ns cs s1.
Proof.
  intros Hinv (n & Hready & Hexec).
  destruct (exec_node_finish s n (ready_is_node s n Hinv Hready)) as (st & log & Hexec' & Hcase).
  rewrite Hexec in Hexec'. injection Hexec' as ->.
  assert (terminal (status st)) as Hterminal.
  { destruct Hcase as [(_ & -> & _)|(inp & o & _ & -> & _)].
    - by right; right.
    - apply executed_terminal, state_of_outcome_executed. }
  exists n, st, log. split_and!; [done|done|done|]. by apply finish_inv.
Qed.

Lemma step_inv s s1 : run_inv ns cs s → step env def input s s1 → run_inv ns cs s1.
Proof. intros Hinv Hstep. by destruct (step_finish s s1 Hinv Hstep) as (? & ? & ? & _ & _ & _ & ?). Qed.

Lemma steps_inv s s1 : run_inv ns cs s → rtc (step env def input) s s1 → run_inv ns cs s1.
Proof. intros Hinv Hsteps. induction Hsteps as [|s s1 s2 Hstep _ IH]; [done|]. by apply IH, (step_inv s). Qed.

(** Every step finishes one more node, so no run has more steps than the
    pipeline has nodes. *)
Lemma steps_bounded s s1 k :
  run_inv ns cs s → nsteps (step env def input) k s s1 →
  (k + length (filter (pend (nodeStates s1)) ns) = length (filter (pend (nodeStates s)) ns))%nat.
Proof.
  intros Hinv Hsteps. induction Hsteps as [|k s s1 s2 Hstep _ IH]; [done|].
  destruct (step_finish s s1 Hinv Hstep) as (n & st & log & Hready & Hterminal & -> & Hinv1).
  rewrite (finish_pending_count s n st log) by done. rewrite <- IH by done. lia.
Qed.

(** A run that can make no further step has finished every node: in the
    topological order the validator found, the leftmost pending node would
    have no pending predecessor and so would be ready. *)
Lemma stuck_all_finished s fin :
  run_inv ns cs s → ready s = [] →
  topo cs fin → (∀ n, n ∈ ns → n ∈ fin) →
  ∀ n, n ∈ ns → finished (nodeStates s) n.
Proof.
  intros Hinv Hstuck Htopo Hall.
  assert (∀ l pre, fin = pre ++ l →
            (∀ x, x ∈ pre → x ∈ ns → ¬ pend (nodeStates s) x) →
            ∀ x, x ∈ l → x ∈ ns → ¬ pend (nodeStates s) x) as Hscan.
  { induction l as [|u l IH]; intros pre Hfin Hpre x Hx Hxn; [by apply elem_of_nil in Hx|].
    assert (u ∈ ns → ¬ pend (nodeStates s) u) as Hu.
    { intros Hun Hpu.
      assert (topo cs (u :: l)) as Htl by (apply (topo_app_r cs pre); by rewrite <- Hfin).
      inversion Htl as [|? ? Htl' Hul Hsucc]; subst.
      assert (u ∈ ready s) as Hru; [|rewrite Hstuck in Hru; by apply elem_of_nil in Hru].
      apply (inv_ready _ _ _ Hinv). split_and!; [done|done|].
      rewrite (inv_deg _ _ _ Hinv) by done.
      destruct (filter _ _) as [|p ps] eqn:Hf; [done|]. exfalso.
      assert (p ∈ filter (pend (nodeStates s)) (predecessors cs u)) as Hp
        by (rewrite Hf; left).
      apply list_elem_of_filter in Hp as [Hpp Hp].
      assert (p ∈ ns) as Hpn by by eapply pred_is_node.
      apply successors_predecessors in Hp.
      pose proof (Hall p Hpn) as Hpf. rewrite elem_of_app, elem_of_cons in Hpf.
      destruct Hpf as [Hpf|[->|Hpf]].
      - by apply (Hpre p).
      - by apply Hul, Hsucc.
      - by apply Hul, (topo_successors cs l p u). }
    apply elem_of_cons in Hx as [->|Hx]; [by apply Hu|].
    apply (IH (pre ++ [u])); [by rewrite <- app_assoc| |done|done].
    intros y [Hy| ->%list_elem_of_singleton]%elem_of_app; [by apply Hpre|done]. }
  intros n Hn. destruct (inv_dom _ _ _ Hinv n Hn) as [Hp|?]; [|done].
  destruct (Hscan fin [] eq_refl (λ x Hx, False_rect _ (proj1 (elem_of_nil x) Hx))
              n (Hall n Hn) Hn Hp).
Qed.

(** The schedule of [drive] never runs out of fuel before the ready set is
    empty. *)
Lemma drive_finishes fuel : ∀ s,
  run_inv ns cs s → length (filter (pend (nodeStates s)) ns) ≤ fuel →
  ∃ s1, drive env def input fuel s = Some s1 ∧
        rtc (step env def input) s s1 ∧ ready s1 = [].
Proof.
  induction fuel as [|fuel IH]; intros s Hinv Hfuel.
  - exists s. split_and!; [done|done|].
    destruct (ready s) as [|n rdy] eqn:Hr; [done|]. exfalso.
    assert (n ∈ ready s) as Hn by (rewrite Hr; left).
    apply (inv_ready _ _ _ Hinv) in Hn as (Hnn & Hnp & _).
    assert (n ∈ filter (pend (nodeStates s)) ns) as Hf by by apply list_elem_of_filter.
    destruct (filter _ _); [by apply elem_of_nil in Hf|simpl in Hfuel; lia].
  - simpl. destruct (ready s) as [|n rdy] eqn:Hr.
    { exists s. by split_and!. }
    assert (n ∈ ready s) as Hn by (rewrite Hr; left).
    destruct (exec_node_finish s n (ready_is_node s n Hinv Hn)) as (st & log & Hexec & Hcase).
    assert (step env def input s (finish cs s n st log)) as Hstep by by exists n.
    destruct (step_finish s _ Hinv Hstep) as (n' & st' & log' & Hn' & Hterminal & Heq & Hinv1).
    rewrite Hexec.
    destruct (IH (finish cs s n st log) Hinv1) as (s1 & Hdrive & Hsteps & Hdone).
    + rewrite Heq. rewrite (finish_pending_count s n' st' log') in Hfuel by done. lia.
    + exists s1. split_and!; [done| |done]. by eapply rtc_l.
Qed.

End run_facts.

(** ** Validation *)

Section validate_facts.

Context (reg : Registry) (def : PipelineDefinition).

Local Abbreviation ns := (ids (pd_nodes def)).
Local Abbreviation cs := (pd_connections def).

(** What a definition that validates is known to satisfy. *)
Lemma validate_valid :
  valid (validate reg def) = true →
  has_type Input (pd_nodes def) = true ∧
  has_type Output (pd_nodes def) = true ∧
  Forall (λ c, from c ∈ ns ∧ to c ∈ ns) cs ∧
  NoDup cs ∧
  Forall (λ c, from c ≠ to c) cs ∧
  (∃ fin, topo cs fin ∧ ∀ n, n ∈ ns → n ∈ fin) ∧
  Forall (λ n, is_Some (node_type_of (type n))) (pd_nodes def).
Proof.
  unfold validate, validation_issues. simpl. intros Hv.
  apply bool_decide_eq_true in Hv.
  apply app_eq_nil in Hv as [H1 Hv]. apply app_eq_nil in Hv as [H2 Hv].
  apply app_eq_nil in Hv as [H3 Hv]. apply app_eq_nil in Hv as [H4 Hv].
  apply app_eq_nil in Hv as [H5 H6].
  assert (∀ (b : bool) (i : Issue), (if b then [] else [i]) = [] → b = true) as Hif
    by (by intros [] ?).
  apply Hif in H1, H2, H6. apply Hif, bool_decide_eq_true in H3, H4.
  split_and!; [done|done|done|by destruct H4|by destruct H4| |].
  - destruct (dfs_all ns cs) as [fin| |] eqn:Hdfs; [|done|done].
    exists fin. by apply dfs_all_topo.
  - apply Forall_forall. intros n Hn. rewrite forallb_forall in H6.
    apply list_elem_of_In, H6 in Hn. unfold config_ok in Hn.
    by destruct (node_type_of (type n)).
Qed.

Lemma validate_invalid :
  valid (validate reg def) = false → issues (validate reg def) ≠ [].
Proof.
  unfold validate. simpl. intros Hv%bool_decide_eq_false Hnil.
  apply Hv. by apply fmap_nil_inv in Hnil.
Qed.

Lemma issue_in (i : Issue) :
  i ∈ validation_issues reg def →
  valid (validate reg def) = false ∧ issue_string i ∈ issues (validate reg def).
Proof.
  intros Hi. unfold validate. simpl. split.
  - apply bool_decide_eq_false. intros Hnil. rewrite Hnil in Hi. by apply elem_of_nil in Hi.
  - apply list_elem_of_fmap. eauto.
Qed.

End validate_facts.

(** A topological order leaves no room for a cycle. *)
Lemma topo_closed cs l : topo cs l → ∀ p n, n ∈ l → linked cs (n :: p) → ∀ x, x ∈ p → x ∈ l.
Proof.
  intros Htopo. induction p as [|b p IH]; intros n Hn Hl x Hx; [by apply elem_of_nil in Hx|].
  destruct Hl as [Hnb Hl].
  assert (b ∈ l) as Hb by (apply (topo_successors cs l n); [done|done|by apply elem_of_successors]).
  apply elem_of_cons in Hx as [->|Hx]; [done|]. by apply (IH b).
Qed.

Lemma topo_acyclic cs l : topo cs l → ∀ n p, n ∈ l → linked cs (n :: p ++ [n]) → False.
Proof.
  induction 1 as [|u l Htopo IH Hul Hsucc]; intros n p Hn Hl; [by apply elem_of_nil in Hn|].
  apply elem_of_cons in Hn as [->|Hn]; [|by apply (IH n p)].
  destruct (p ++ [u]) as [|b q] eqn:Hq; [by destruct p|].
  destruct Hl as [Hub Hl].
  assert (b ∈ l) as Hb by by apply Hsucc, elem_of_successors.
  assert (u ∈ b :: q) as Hu by (rewrite <- Hq; apply elem_of_app; right; left).
  apply Hul. apply elem_of_cons in Hu as [->|Hu]; [done|].
  by apply (topo_closed cs l Htopo q b).
Qed.

(** A definition with a cycle through one of its nodes gets a cycle issue
    from the validator. *)
Lemma cycle_detected reg def n p :
  n ∈ ids (pd_nodes def) → linked (pd_connections def) (n :: p ++ [n]) →
  ∃ m, Cycle m ∈ validation_issues reg def.
Proof.
  intros Hn Hl. unfold validation_issues.
  destruct (dfs_all (ids (pd_nodes def)) (pd_connections def)) as [fin|m|] eqn:Hdfs.
  - apply dfs_all_topo in Hdfs as [Htopo Hall].
    destruct (topo_acyclic _ _ Htopo n p (Hall n Hn) Hl).
  - exists m. rewrite !elem_of_app. do 4 right. left. left.
  - by destruct (dfs_all_fuel (pd_connections def) (ids (pd_nodes def))).
Qed.

(** ** The executor *)

Lemma linked_last cs p q n : linked cs ((p ++ [q]) ++ [n]) → {| from := q; to := n |} ∈ cs.
Proof.
  induction p as [|x p IH]; [by intros [? _]|].
  intros Hl. apply IH. destruct p; simpl in *; tauto.
Qed.

Section execute_facts.

Context (env : Env) (def : PipelineDefinition) (input : Payload).

Local Abbreviation ns := (ids (pd_nodes def)).
Local Abbreviation cs := (pd_connections def).

Hypothesis Hvalid : valid (validate (registry env) def) = true.
Hypothesis Hids : NoDup ns.

Lemma reachable_inv s :
  rtc (step env def input) (init_state def) s → run_inv ns cs s.
Proof.
  destruct (validate_valid _ _ Hvalid) as (_ & _ & Hends & Hcs & _ & _ & Htypes).
  intros Hsteps. eapply steps_inv; [done..| |done]. by apply init_state_inv.
Qed.

(** At the end of a run every node is Succeeded, Failed or Skipped. *)
Lemma final_all_finished s :
  rtc (step env def input) (init_state def) s → ready s = [] →
  ∀ n, n ∈ ns → finished (nodeStates s) n.
Proof.
  destruct (validate_valid _ _ Hvalid) as (_ & _ & Hends & Hcs & _ & (fin & Htopo & Hall) & Htypes).
  intros Hsteps Hstuck. eapply stuck_all_finished; [done..|by apply reachable_inv|done|done|done].
Qed.

(** A node all of whose paths from the roots lead through a failed node is
    skipped and its executor is never invoked. *)
Lemma final_skipped s f n :
  rtc (step env def input) (init_state def) s → ready s = [] →
  n ∈ ns → status_of (nodeStates s) f = Some Failed →
  (∀ p, root_path cs p n → f ∈ p) →
  status_of (nodeStates s) n = Some Skipped ∧ n ∉ (calls s).*1.
Proof.
  intros Hsteps Hstuck Hn Hf Hthrough.
  pose proof (reachable_inv s Hsteps) as Hinv.
  assert (∀ x, status_of (nodeStates s) n = Some x → ¬ executed x) as Hnot.
  { intros x Hx Hex. destruct (inv_path _ _ _ Hinv n x Hx Hex) as (p & Hp & Hall).
    specialize (Hall f (Hthrough p Hp)). congruence. }
  destruct (final_all_finished s Hsteps Hstuck n Hn) as (x & Hx & Hterm).
  split.
  - destruct Hterm as [->|[->| ->]]; [|by destruct (Hnot Failed Hx); right|done].
    by destruct (Hnot Succeeded Hx); left.
  - intros (y & Hy & Hey)%(inv_calls _ _ _ Hinv). by apply (Hnot y).
Qed.

(** A node with a path from a root along which every node succeeded has
    its executor invoked. *)
Lemma final_executed s n p :
  rtc (step env def input) (init_state def) s → ready s = [] →
  n ∈ ns → root_path cs p n →
  (∀ q, q ∈ p → status_of (nodeStates s) q = Some Succeeded) →
  n ∈ (calls s).*1 ∧ ∃ x, status_of (nodeStates s) n = Some x ∧ executed x.
Proof.
  intros Hsteps Hstuck Hn [Hl (r & Hr & Hroot)] Hall.
  pose proof (reachable_inv s Hsteps) as Hinv.
  destruct (final_all_finished s Hsteps Hstuck n Hn) as (x & Hx & Hterm).
  assert (executed x) as Hex.
  { destruct Hterm as [->|[->| ->]]; [by left|by right|]. exfalso.
    destruct (inv_decided _ _ _ Hinv n) as (_ & Hskip & _); [by exists Skipped; split; [|right; right]|].
    destruct (Hskip Hx) as [Hne Hnone].
    destruct p as [|q p _] using rev_ind.
    - simpl in Hr. injection Hr as <-. done.
    - apply (Hnone q).
      + apply elem_of_predecessors. by apply (linked_last cs p).
      + apply Hall, elem_of_app. right. left. }
  split; [|by exists x]. apply (inv_calls _ _ _ Hinv). by exists x.
Qed.

(** [execute] carries the run to its end and returns the record. *)
Lemma execute_completes eid :
  ∃ s, rtc (step env def input) (init_state def) s ∧ ready s = [] ∧
       execute env def input eid = (calls s, inr (record_of eid def input s)).
Proof.
  destruct (validate_valid _ _ Hvalid) as (_ & _ & Hends & Hcs & _ & _ & Htypes).
  destruct (drive_finishes env def input Hids Hends Hcs Htypes
              (length (pd_nodes def)) (init_state def)) as (s & Hdrive & Hsteps & Hstuck).
  - by apply init_state_inv.
  - etrans; [apply length_filter|]. unfold ids. by rewrite length_fmap.
  - exists s. split_and!; [done|done|]. unfold execute. by rewrite Hvalid, Hdrive.
Qed.

(** No run is longer than the number of nodes. *)
Lemma run_length k s :
  nsteps (step env def input) k (init_state def) s → k ≤ length (pd_nodes def).
Proof.
  destruct (validate_valid _ _ Hvalid) as (_ & _ & Hends & Hcs & _ & _ & Htypes).
  intros Hsteps.
  pose proof (steps_bounded env def input Hids Hends Hcs Htypes _ _ _
                (init_state_inv def Hids Hends) Hsteps) as Hk.
  assert (length (filter (pend (nodeStates (init_state def))) ns) ≤ length (pd_nodes def)).
  { etrans; [apply length_filter|]. unfold ids. by rewrite length_fmap. }
  lia.
Qed.

End execute_facts.

(** ** The claims about the engine *)





(** The save gate of the builder: without an Input or without an Output
    node nothing is sent, and the one toast names both requirements. *)
Lemma savePipeline_requires_input_and_output b :
  (∀ n, n ∈ nodes b → type n ≠ "input") ∨ (∀ n, n ∈ nodes b → type n ≠ "output") →
  savePipeline b = [ToastError "Pipeline must have at least one Input and one Output node"].
Proof.
  intros Hmissing. unfold savePipeline.
  assert (∀ tag, (∀ n, n ∈ nodes b → type n ≠ tag) →
            existsb (λ n, bool_decide (type n = tag)) (nodes b) = false) as Hnone.
  { intros tag Hall. apply not_true_iff_false. intros (n & Hn & Ht)%existsb_exists.
    apply bool_decide_eq_true in Ht. by apply (Hall n); [apply list_elem_of_In|]. }
  destruct Hmissing as [H|H]; rewrite (Hnone _ H); [done|].
  by destruct (existsb _ _).
Qed.

(** The run gate of the builder: no execute request follows a reply that
    says the pipeline is not valid. *)
Lemma runPipeline_gate b validation inputData pid inp :
  valid validation = false →
  ExecuteRequest pid inp ∉ runPipeline b validation inputData.
Proof.
  intros Hv. unfold runPipeline. destruct (currentPipelineId b) as [p|].
  - rewrite Hv. simpl. set_unfold. by intros [?|[?|?]].
  - set_unfold. by intros [?|?].
Qed.

(** C2.  A definition that does not validate is rejected by the executor
    with a [ValidationError] carrying the issues, no node executor is
    invoked, no execution record is created and the engine is left as it
    was; the builder sends no execute request after such a reply.  A
    pipeline with edges A→B and B→A fails validation with a cycle issue, so
    no node of it is ever executed. *)
Theorem invalid_definition_never_runs (env : Env) (def : PipelineDefinition)
    (input : Payload) (e : Engine) :
  (valid (validate (registry env) def) = false →
     executePipeline env def input e
     = (([], inl (ValidationError (issues (validate (registry env) def)))), e) ∧
     issues (validate (registry env) def) ≠ [] ∧
     ∀ b inputData pid inp,
       ExecuteRequest pid inp ∉ runPipeline b (validate (registry env) def) inputData) ∧
  (∀ a b, a ∈ ids (pd_nodes def) →
     {| from := a; to := b |} ∈ pd_connections def →
     {| from := b; to := a |} ∈ pd_connections def →
     valid (validate (registry env) def) = false ∧
     (∃ n, issue_string (Cycle n) ∈ issues (validate (registry env) def)) ∧
     (executePipeline env def input e).1.1 = [] ∧
     (executePipeline env def input e).2 = e).
Proof.
  assert (valid (validate (registry env) def) = false →
          executePipeline env def input e
          = (([], inl (ValidationError (issues (validate (registry env) def)))), e)) as Hrej.
  { intros Hv. unfold executePipeline, execute. by rewrite Hv. }
  split.
  - intros Hv. split_and!; [by apply Hrej|by apply validate_invalid|].
    intros b inputData pid inp. by apply runPipeline_gate.
  - intros a b Ha Hab Hba.
    destruct (cycle_detected (registry env) def a [b] Ha) as [n Hn]; [by repeat split|].
    destruct (issue_in (registry env) def (Cycle n) Hn) as [Hv Hin].
    split_and!; [done|by exists n|by rewrite Hrej|by rewrite Hrej].
Qed.

Lemma invalid_definition_never_runs_witness :
  valid (validate (registry failing_env) cyclic_pipeline) = false ∧
  executePipeline failing_env cyclic_pipeline (PStr "hello world") empty_engine
  = (([], inl (ValidationError ["cycle detected at A"])), empty_engine).
Proof.
  assert (valid (validate (registry failing_env) cyclic_pipeline) = false) as Hv
    by (vm_compute; reflexivity).
  split; [exact Hv|].
  exact (proj1 (proj1 (invalid_definition_never_runs failing_env cyclic_pipeline
                         (PStr "hello world") empty_engine) Hv)).
Defined.

(** C4.  In every execution of a validated definition with distinct node
    ids: the run ends after at most as many steps as there are nodes, and
    [execute] returns a record in which every node is Succeeded, Failed or
    Skipped; when a node failed, every node whose paths from the roots all
    lead through it is Skipped and its executor is never invoked; and every
    node with a path from a root along which all nodes succeeded has its
    executor invoked. *)
Theorem failure_propagation (env : Env) (def : PipelineDefinition)
    (input : Payload) (eid : nat) :
  valid (validate (registry env) def) = true →
  NoDup (ids (pd_nodes def)) →
  (∃ s rec, execute env def input eid = (calls s, inr rec) ∧
            rec = record_of eid def input s ∧
            rtc (step env def input) (init_state def) s ∧ ready s = []) ∧
  (∀ k s, nsteps (step env def input) k (init_state def) s → k ≤ length (pd_nodes def)) ∧
  (∀ s, rtc (step env def input) (init_state def) s → ready s = [] →
     (∀ n, n ∈ ids (pd_nodes def) →
        ∃ x, status_of (nodeStates s) n = Some x ∧
             (x = Succeeded ∨ x = Failed ∨ x = Skipped)) ∧
     (∀ f n, n ∈ ids (pd_nodes def) →
        status_of (nodeStates s) f = Some Failed →
        (∀ p, root_path (pd_connections def) p n → f ∈ p) →
        status_of (nodeStates s) n = Some Skipped ∧ n ∉ (calls s).*1) ∧
     (∀ n p, n ∈ ids (pd_nodes def) →
        root_path (pd_connections def) p n →
        (∀ q, q ∈ p → status_of (nodeStates s) q = Some Succeeded) →
        n ∈ (calls s).*1 ∧
        ∃ x, status_of (nodeStates s) n = Some x ∧ (x = Succeeded ∨ x = Failed))).
Proof.
  intros Hvalid Hids. split_and!.
  - destruct (execute_completes env def input Hvalid Hids eid) as (s & Hsteps & Hstuck & Hexec).
    by exists s, (record_of eid def input s).
  - intros k s. apply (run_length env def input Hvalid Hids).
  - intros s Hsteps Hstuck. split_and!.
    + intros n Hn. by apply (final_all_finished env def input Hvalid Hids s).
    + intros f n. by apply (final_skipped env def input Hvalid Hids).
    + intros n p. by apply (final_executed env def input Hvalid Hids).
Qed.

Lemma failure_propagation_witness :
  valid (validate (registry failing_env) diamond_pipeline) = true ∧
  NoDup (ids (pd_nodes diamond_pipeline)) ∧
  ∃ s rec, execute failing_env diamond_pipeline (PStr "abc") 0 = (calls s, inr rec) ∧
           rec = record_of 0 diamond_pipeline (PStr "abc") s ∧
           rtc (step failing_env diamond_pipeline (PStr "abc")) (init_state diamond_pipeline) s ∧
           ready s = [].
Proof.
  assert (valid (validate (registry failing_env) diamond_pipeline) = true) as Hv
    by (vm_compute; reflexivity).
  assert (NoDup (ids (pd_nodes diamond_pipeline))) as Hn by by_evaluation.
  split; [exact Hv|]. split; [exact Hn|].
  exact (proj1 (failure_propagation failing_env diamond_pipeline (PStr "abc") 0 Hv Hn)).
Defined.

(** The diamond with the failing agent, evaluated: [A] fails, [C] behind it
    is skipped, [O] still runs on the output of [B], and the run is Failed. *)
Example diamond_run :
  let r := execute failing_env diamond_pipeline (PStr "abc") 0 in
  r.1 = [("I", PStr "abc"); ("A", PStr "abc"); ("B", PStr "abc");
         ("O", PArr [("B", PStr "cba")])] ∧
  match r.2 with
  | inr rec =>
      er_status rec = RunFailed ∧
      status_of (er_nodeStates rec) <$> ["I"; "A"; "B"; "C"; "O"]
      = [Some Succeeded; Some Failed; Some Succeeded; Some Skipped; Some Succeeded]
  | inl _ => False
  end.
Proof. vm_compute. by split_and!. Qed.





(** ** The coupling registry *)

Section coupling_facts.

Variable analyze : gset string → gset string → CompatibilityLevel.
Variable reg : Registry.

Implicit Types (r : list Coupling) (c : Coupling).

Lemma active_for_with_state a s c st :
  active_for a s (with_state c st) ↔ agentId c = a ∧ serverId c = s ∧ st = Active.
Proof. done. Qed.








End coupling_facts.



(** ** More about the builder *)

Section builder_more.

Implicit Types (b : Builder) (c : Connection) (n : Node).

Lemma set_connections_same b : set_connections b (connections b) = b.
Proof. by destruct b. Qed.

Lemma find_pair_present fromId toId (cs : list Connection) :
  {| from := fromId; to := toId |} ∈ cs →
  is_Some (List.find (λ c, bool_decide (from c = fromId) && bool_decide (to c = toId)) cs).
Proof.
  intros Hin. destruct (List.find _ _) eqn:Hfind; [by eexists|].
  apply list_elem_of_In in Hin. eapply find_none in Hfind; [|exact Hin].
  simpl in Hfind. by rewrite !bool_decide_eq_true_2 in Hfind.
Qed.

Lemma pair_absent_filter fromId toId (cs : list Connection) :
  {| from := fromId; to := toId |} ∉ cs →
  filter (λ c, ¬ (from c = fromId ∧ to c = toId)) cs = cs.
Proof.
  intros Hnin. apply filter_keeps_all, Forall_forall.
  intros [f t] Hc [Hf Ht]. simpl in *. by subst.
Qed.

(** Connecting a pair that is already connected changes nothing: a second
    [connectNodes] with the same ids gives the state the first one gave. *)
Theorem connectNodes_idempotent fromId toId b :
  connectNodes fromId toId (connectNodes fromId toId b) = connectNodes fromId toId b.
Proof.
  destruct (connectNodes_connections fromId toId b) as [Hsame|(Hne & Hnin & Happ)].
  - unfold connectNodes at 1. case_bool_decide; [done|].
    destruct (List.find _ (connections (connectNodes fromId toId b))) eqn:Hfind; [done|].
    exfalso. unfold connectNodes in Hfind. rewrite bool_decide_eq_false_2 in Hfind by done.
    destruct (List.find _ (connections b)) eqn:Hfind'; [congruence|].
    simpl in Hfind.
    destruct (find_pair_present fromId toId (connections b ++ [{| from := fromId; to := toId |}]))
      as [c Hc]; [apply elem_of_app; right; left|]. congruence.
  - unfold connectNodes at 1. rewrite bool_decide_eq_false_2 by done.
    destruct (find_pair_present fromId toId (connections (connectNodes fromId toId b)))
      as [c ->]; [|done].
    rewrite Happ. apply elem_of_app. right. left.
Qed.

(** Removing a connection right after making it gives back the state from
    before, when the pair was not connected then. *)
Theorem removeConnection_connectNodes fromId toId b :
  {| from := fromId; to := toId |} ∉ connections b →
  removeConnection fromId toId (connectNodes fromId toId b) = b.
Proof.
  intros Hnin. unfold connectNodes. case_bool_decide.
  - unfold removeConnection. rewrite pair_absent_filter by done. apply set_connections_same.
  - destruct (List.find _ _) eqn:Hfind.
    + unfold removeConnection. rewrite pair_absent_filter by done. apply set_connections_same.
    + unfold removeConnection. simpl. rewrite filter_app, pair_absent_filter by done.
      rewrite filter_cons_False, filter_nil, app_nil_r by (intros Hn; by apply Hn).
      by destruct b.
Qed.

Lemma removeConnection_connectNodes_witness :
  removeConnection "node-1" "node-3" (connectNodes "node-1" "node-3" initialBuilder)
  = initialBuilder.
Proof.
  apply removeConnection_connectNodes. by_evaluation.
Defined.

(** [removeConnection] takes out the given pair and nothing else: the pair
    is gone, every other connection is still there and in the order it had,
    and nodes, selection, connection mode and saved id are untouched. *)
Theorem removeConnection_frame fromId toId b :
  ({| from := fromId; to := toId |} ∉ connections (removeConnection fromId toId b)) ∧
  (∀ c, c ∈ connections b → c ≠ {| from := fromId; to := toId |} →
        c ∈ connections (removeConnection fromId toId b)) ∧
  connections (removeConnection fromId toId b) `sublist_of` connections b ∧
  nodes (removeConnection fromId toId b) = nodes b ∧
  selectedNode (removeConnection fromId toId b) = selectedNode b ∧
  connectionMode (removeConnection fromId toId b) = connectionMode b ∧
  connectionStart (removeConnection fromId toId b) = connectionStart b ∧
  currentPipelineId (removeConnection fromId toId b) = currentPipelineId b.
Proof.
  unfold removeConnection. simpl. split_and!; try done.
  - intros [Hc _]%list_elem_of_filter. by apply Hc.
  - intros [f t] Hc Hne. apply list_elem_of_filter. split; [|done].
    intros [Hf Ht]. simpl in *. by subst.
  - apply sublist_filter.
Qed.

(** In every state the builder can reach from its initial pipeline, by any
    sequence of user events, no connection joins a node to itself and no
    pair of nodes is connected twice. *)
Theorem reachable_connections_wellformed (es : list Event) :
  loop_free (connections (run es initialBuilder)) ∧
  NoDup (connections (run es initialBuilder)).
Proof. apply run_connections_invariant, initialBuilder_connections_invariant. Qed.

Lemma handle_currentPipelineId e b :
  currentPipelineId (handle e b) = currentPipelineId b.
Proof.
  destruct e; simpl.
  - unfold addNode. by destruct (List.find _ _).
  - destruct (nodes b !! i); [|done]. unfold nodeClick.
    destruct (connectionMode b); [|done]. destruct (connectionStart b); [|done].
    case_bool_decide; [|done]. simpl. unfold connectNodes.
    case_bool_decide; [done|]. by destruct (List.find _ _).
  - done.
  - destruct (selectedNode b) as [s|] eqn:Hs; [|done]. unfold removeNode. rewrite Hs.
    by case_bool_decide.
  - destruct (connections b !! i); [|done]. by destruct (_ && _).
  - by destruct (connections b).
  - done.
  - by destruct (selectedNode b).
  - destruct (selectedNode b); [|done]. by destruct (editable_key _ _).
  - by destruct (nodes b !! i).
Qed.

Lemma run_currentPipelineId es b :
  currentPipelineId (run es b) = currentPipelineId b.
Proof.
  revert b. induction es as [|e es IH]; intros b; [done|].
  simpl. by rewrite IH, handle_currentPipelineId.
Qed.

(** Once the server has stored the pipeline under a (non-empty) id, no
    editing makes the builder forget it: whatever the user does afterwards,
    a save never creates a second pipeline, a save that is sent is an
    update of that id, and a run validates and executes that id. *)
Theorem saved_pipeline_is_updated (pid : string) (es : list Event) (b : Builder) :
  pid ≠ "" →
  currentPipelineId (run es (createSucceeded pid b)) = Some pid ∧
  (∀ d, CreatePipeline d ∉ savePipeline (run es (createSucceeded pid b))) ∧
  (∀ e, e ∈ savePipeline (run es (createSucceeded pid b)) → is_save_request e = true →
        e = UpdatePipeline pid (pipelineData (run es (createSucceeded pid b)))) ∧
  (∀ validation inp, valid validation = true →
        runPipeline (run es (createSucceeded pid b)) validation (Some inp)
        = [ValidateRequest pid; ExecuteRequest pid inp]).
Proof.
  intros _.
  assert (currentPipelineId (run es (createSucceeded pid b)) = Some pid) as Hid
    by by rewrite run_currentPipelineId.
  split; [done|]. unfold savePipeline, runPipeline. rewrite Hid.
  destruct (_ || _); split_and!.
  - intros d [Hd|Hd]%elem_of_cons; [done|by apply elem_of_nil in Hd].
  - intros e [->|He]%elem_of_cons; [done|by apply elem_of_nil in He].
  - by intros validation inp ->.
  - intros d [Hd|Hd]%elem_of_cons; [done|by apply elem_of_nil in Hd].
  - intros e [->|He]%elem_of_cons; [done|by apply elem_of_nil in He].
  - by intros validation inp ->.
Qed.

Lemma saved_pipeline_is_updated_witness :
  runPipeline (run [ENodeClick 1; ERemoveSelected; ELoadTestPipeline]
                 (createSucceeded "p-1" initialBuilder))
    {| valid := true; issues := [] |} (Some "hello")
  = [ValidateRequest "p-1"; ExecuteRequest "p-1" "hello"].
Proof.
  destruct (saved_pipeline_is_updated "p-1" [ENodeClick 1; ERemoveSelected; ELoadTestPipeline]
              initialBuilder ltac:(done)) as (_ & _ & _ & Hrun).
  by apply Hrun.
Defined.

(** A pipeline that was never stored cannot be run, whatever is edited:
    in every state reached from the initial one by user events alone, Run
    sends no request and only asks for a save, and a save that is sent
    creates a pipeline. *)
Theorem unsaved_pipeline_never_runs (es : list Event) validation inputData :
  runPipeline (run es initialBuilder) validation inputData
  = [ToastError "Please save the pipeline first"] ∧
  (∀ pid d, UpdatePipeline pid d ∉ savePipeline (run es initialBuilder)).
Proof.
  assert (currentPipelineId (run es initialBuilder) = None) as Hid
    by by rewrite run_currentPipelineId.
  unfold runPipeline, savePipeline. rewrite Hid. split; [done|].
  intros pid d. destruct (_ || _);
    (intros [Hd|Hd]%elem_of_cons; [done|by apply elem_of_nil in Hd]).
Qed.

End builder_more.

Section builder_nodes.

Implicit Types (b : Builder) (c : Connection) (n : Node).

Lemma addNode_ids_cases nodeTypes now rx ry ty b :
  ids (nodes (addNode nodeTypes now rx ry ty b)) = ids (nodes b) ∨
  ids (nodes (addNode nodeTypes now rx ry ty b)) = ids (nodes b) ++ [node_id_of_clock now].
Proof.
  unfold addNode. destruct (List.find _ _); [right|by left].
  simpl. unfold ids. by rewrite fmap_app.
Qed.

(** Node ids stay pairwise distinct over any series of additions whose
    clock readings differ from one another and render to ids the pipeline
    does not have yet. *)
Theorem addAll_distinct_clock nodeTypes (adds : list Addition) : ∀ b,
  NoDup (ids (nodes b)) →
  NoDup (add_now <$> adds) →
  (∀ a, a ∈ adds → node_id_of_clock (add_now a) ∉ ids (nodes b)) →
  NoDup (ids (nodes (addAll nodeTypes adds b))).
Proof.
  induction adds as [|a adds IH]; intros b Hnd Hnows Hfresh; [done|].
  rewrite fmap_cons in Hnows. apply NoDup_cons in Hnows as [Ha Hnows].
  simpl. apply IH; [|done|].
  - apply addNode_fresh_clock; [done|]. apply Hfresh. left.
  - intros a' Ha'.
    destruct (addNode_ids_cases nodeTypes (add_now a) (add_rx a) (add_ry a) (add_type a) b)
      as [->| ->].
    + apply Hfresh. by right.
    + intros [Hin|Heq%list_elem_of_singleton]%elem_of_app.
      * by apply (Hfresh a'); [right|].
      * apply node_id_of_clock_inj in Heq. apply Ha. rewrite <- Heq.
        apply list_elem_of_fmap. eauto.
Qed.

Lemma addAll_distinct_clock_witness :
  let nodeTypes := [ {| nt_type := "text"; nt_label := "Text Transform";
                        nt_config_schema := Some [("operation", Some "uppercase")] |} ] in
  let adds := [ {| add_now := 1750000000000; add_rx := 1 # 2; add_ry := 1 # 2;
                   add_type := "text" |};
                {| add_now := 1750000000001; add_rx := 1 # 4; add_ry := 3 # 4;
                   add_type := "text" |} ] in
  ids (nodes (addAll nodeTypes adds initialBuilder))
  = ["node-1"; "node-2"; "node-3"; "node-1750000000000"; "node-1750000000001"] ∧
  NoDup (ids (nodes (addAll nodeTypes adds initialBuilder))).
Proof.
  intros nodeTypes adds. split; [reflexivity|].
  apply addAll_distinct_clock; [by_evaluation|by_evaluation|].
  intros a Ha. repeat (apply elem_of_cons in Ha as [->|Ha]; [by_evaluation|]).
  by apply elem_of_nil in Ha.
Defined.



(** An [addNode] for a type the palette does not list changes nothing; one
    for a listed type puts a single node at the end of the node list, with
    that type, the label of its palette entry and the default
    configuration, and touches neither the other nodes nor the
    connections. *)
Theorem addNode_appends nodeTypes now rx ry ty b :
  (ty ∉ nt_type <$> nodeTypes → addNode nodeTypes now rx ry ty b = b) ∧
  (ty ∈ nt_type <$> nodeTypes →
   ∃ nodeType n,
     nodeType ∈ nodeTypes ∧ nt_type nodeType = ty ∧
     nodes (addNode nodeTypes now rx ry ty b) = nodes b ++ [n] ∧
     id n = node_id_of_clock now ∧ type n = ty ∧ label n = nt_label nodeType ∧
     config n = from_option default_config ∅ (nt_config_schema nodeType) ∧
     connections (addNode nodeTypes now rx ry ty b) = connections b).
Proof.
  unfold addNode. destruct (List.find _ _) as [nodeType|] eqn:Hfind.
  - apply find_some in Hfind as [Hin Hty]. apply bool_decide_eq_true in Hty.
    apply list_elem_of_In in Hin. split.
    + intros Hnot. destruct Hnot. apply list_elem_of_fmap. eauto.
    + intros _. eexists nodeType, _. split_and!; try done.
  - split; [done|]. intros (nt & -> & Hnt)%list_elem_of_fmap.
    apply list_elem_of_In in Hnt. eapply find_none in Hfind; [|exact Hnt].
    simpl in Hfind. by rewrite bool_decide_eq_true_2 in Hfind.
Qed.

(** Removing a node twice is removing it once, and two removals can be
    made in either order. *)
Theorem removeNode_compose (x y : string) b :
  removeNode x (removeNode x b) = removeNode x b ∧
  nodes (removeNode x (removeNode y b)) = nodes (removeNode y (removeNode x b)) ∧
  connections (removeNode x (removeNode y b)) = connections (removeNode y (removeNode x b)).
Proof.
  split_and!.
  - assert (∀ b', nodes b' = filter (λ n, id n ≠ x) (nodes b) →
              connections b' = filter (λ c, from c ≠ x ∧ to c ≠ x) (connections b) →
              (∀ s, selectedNode b' = Some s → id s ≠ x) →
              removeNode x b' = b') as Hfix.
    { intros b' Hn Hc Hs. unfold removeNode.
      rewrite Hn, Hc, !list_filter_filter.
      rewrite (filter_ext_elem (λ n, id n ≠ x ∧ id n ≠ x) (λ n, id n ≠ x)) by (intros; tauto).
      rewrite (filter_ext_elem (λ c, (from c ≠ x ∧ to c ≠ x) ∧ from c ≠ x ∧ to c ≠ x)
                 (λ c, from c ≠ x ∧ to c ≠ x)) by (intros; tauto).
      rewrite <- Hn, <- Hc.
      destruct (selectedNode b') as [s|] eqn:Hsel.
      - rewrite bool_decide_eq_false_2 by by apply Hs. by destruct b'.
      - by destruct b'. }
    apply Hfix; [apply removeNode_nodes|apply removeNode_connections|].
    unfold removeNode. destruct (selectedNode b) as [s0|] eqn:Hsel.
    + case_bool_decide as Hid; simpl; [done|]. rewrite Hsel. by intros s [= <-].
    + simpl. by rewrite Hsel.
  - rewrite !removeNode_nodes, !list_filter_filter.
    apply filter_ext_elem. intros; tauto.
  - rewrite !removeNode_connections, !list_filter_filter.
    apply filter_ext_elem. intros; tauto.
Qed.

End builder_nodes.

Section builder_invariants.

Implicit Types (b : Builder) (c : Connection) (n : Node).

Lemma ids_update_by_id (f : Node → Node) (i0 : string) (ns : list Node) :
  (∀ n, id (f n) = id n) →
  ids ((λ n, if bool_decide (id n = i0) then f n else n) <$> ns) = ids ns.
Proof.
  intros Hf. unfold ids. induction ns as [|n ns IH]; [done|].
  rewrite !fmap_cons, IH. f_equal. by case_bool_decide.
Qed.

Lemma types_update_by_id (f : Node → Node) (i0 : string) (ns : list Node) :
  (∀ n, type (f n) = type n) →
  type <$> ((λ n, if bool_decide (id n = i0) then f n else n) <$> ns) = type <$> ns.
Proof.
  intros Hf. induction ns as [|n ns IH]; [done|].
  rewrite !fmap_cons, IH. f_equal. by case_bool_decide.
Qed.

Lemma removeNode_connectionStart x b :
  connectionStart (removeNode x b) = connectionStart b.
Proof. unfold removeNode. destruct (selectedNode b); [case_bool_decide|]; done. Qed.

Lemma removeNode_ends_exist x b :
  ends_exist (nodes b) (connections b) →
  ends_exist (nodes (removeNode x b)) (connections (removeNode x b)).
Proof.
  intros He c. rewrite removeNode_connections, removeNode_nodes.
  intros [[Hf Ht] Hc]%list_elem_of_filter. destruct (He c Hc) as [Hfi Hti].
  assert (∀ i, i ≠ x → i ∈ ids (nodes b) → i ∈ ids (filter (λ n, id n ≠ x) (nodes b)))
    as Hkeep.
  { intros i Hi (n & -> & Hn)%list_elem_of_fmap. apply list_elem_of_fmap.
    exists n. split; [done|]. by apply list_elem_of_filter. }
  split; by apply Hkeep.
Qed.

Lemma addNode_ids_mono nodeTypes now rx ry ty b i :
  i ∈ ids (nodes b) → i ∈ ids (nodes (addNode nodeTypes now rx ry ty b)).
Proof.
  intros Hi. destruct (addNode_ids_cases nodeTypes now rx ry ty b) as [->| ->]; [done|].
  apply elem_of_app. by left.
Qed.

Lemma addNode_connectionStart nodeTypes now rx ry ty b :
  connectionStart (addNode nodeTypes now rx ry ty b) = connectionStart b.
Proof. unfold addNode. by destruct (List.find _ _). Qed.

Lemma lookup_id_in (ns : list Node) i n : ns !! i = Some n → id n ∈ ids ns.
Proof.
  intros Hn. apply list_elem_of_fmap. exists n. split; [done|].
  by eapply list_elem_of_lookup_2.
Qed.

Lemma handle_keeps_ends e b :
  (replaces_nodes e = true → connectionStart b = None) →
  ends_exist (nodes b) (connections b) ∧ start_exists b →
  ends_exist (nodes (handle e b)) (connections (handle e b)) ∧ start_exists (handle e b).
Proof.
  intros Hsafe [He Hs]. destruct e; simpl.
  - split.
    + rewrite addNode_connections. intros c Hc. destruct (He c Hc).
      split; by apply addNode_ids_mono.
    + intros s. rewrite addNode_connectionStart. intros Hst.
      by apply addNode_ids_mono, Hs.
  - destruct (nodes b !! i) as [node|] eqn:Hnode; [|done]. unfold nodeClick.
    destruct (connectionMode b); [|done].
    destruct (connectionStart b) as [start|] eqn:Hstart.
    + case_bool_decide; [|done]. simpl. split; [|done].
      apply connectNodes_ends_exist; [by apply Hs|by eapply lookup_id_in|done].
    + split; [done|]. intros s. simpl. intros [= <-]. by eapply lookup_id_in.
  - split; [done|]. by intros s.
  - specialize (Hsafe eq_refl).
    destruct (selectedNode b) as [s|]; [|done]. split; [by apply removeNode_ends_exist|].
    intros s'. by rewrite removeNode_connectionStart, Hsafe.
  - destruct (connections b !! i) as [conn|]; [|done].
    destruct (_ && _); [|done]. split; [|done].
    intros c. simpl. intros [_ Hc]%list_elem_of_filter. by apply He.
  - destruct (connections b) eqn:Hcs; [by rewrite Hcs|]. split; [|done].
    intros c' Hc. simpl in Hc. by apply elem_of_nil in Hc.
  - specialize (Hsafe eq_refl). split.
    + apply ends_exist_Forall. simpl. by_evaluation.
    + intros s. simpl. by rewrite Hsafe.
  - destruct (selectedNode b) as [s|]; [|done]. split.
    + simpl. intros c Hc. by rewrite ids_update_by_id; [apply He|].
    + intros s'. simpl. intros Hst. by rewrite ids_update_by_id; [apply Hs|].
  - destruct (selectedNode b) as [s|]; [|done]. destruct (editable_key _ _); [|done]. split.
    + simpl. intros c Hc. by rewrite ids_update_by_id; [apply He|].
    + intros s'. simpl. intros Hst. by rewrite ids_update_by_id; [apply Hs|].
  - destruct (nodes b !! i) as [node|]; [|done]. split.
    + simpl. intros c Hc. by rewrite ids_update_by_id; [apply He|].
    + intros s'. simpl. intros Hst. by rewrite ids_update_by_id; [apply Hs|].
Qed.

Lemma run_keeps_ends es : ∀ b,
  careful es b →
  ends_exist (nodes b) (connections b) ∧ start_exists b →
  ends_exist (nodes (run es b)) (connections (run es b)) ∧ start_exists (run es b).
Proof.
  induction es as [|e es IH]; intros b Hc Hinv; [done|].
  destruct Hc as [Hsafe Hc]. simpl. apply IH; [done|]. by apply handle_keeps_ends.
Qed.

(** Starting from the initial pipeline, as long as the user removes a node
    or loads the test pipeline only while no start of a connection is
    picked, every connection joins two nodes of the pipeline, and so does
    the picked start. *)
Theorem careful_run_ends_exist (es : list Event) :
  careful es initialBuilder →
  ends_exist (nodes (run es initialBuilder)) (connections (run es initialBuilder)) ∧
  start_exists (run es initialBuilder).
Proof.
  intros Hc. apply run_keeps_ends; [done|]. split.
  - apply ends_exist_Forall. by_evaluation.
  - by intros s.
Qed.

Lemma careful_run_ends_exist_witness :
  let es := [EToggleConnectMode; ENodeClick 0; ENodeClick 2; ENodeClick 1;
             ERemoveSelected; ELoadTestPipeline] in
  connections (run es initialBuilder) = testConnections ∧
  ends_exist (nodes (run es initialBuilder)) (connections (run es initialBuilder)) ∧
  start_exists (run es initialBuilder).
Proof.
  intros es. split; [reflexivity|].
  apply careful_run_ends_exist. simpl. split_and!; done.
Defined.

Lemma handle_keeps_sync e b :
  e ≠ ELoadTestPipeline → selected_in_sync b → selected_in_sync (handle e b).
Proof.
  intros Hne Hs. destruct e; simpl; try done.
  - unfold addNode. destruct (List.find _ _) as [nodeType|]; [|done].
    intros s Hsel. simpl in *. destruct (Hs s Hsel) as (n & Hn & Heq).
    exists n. split; [|done]. apply elem_of_app. by left.
  - destruct (nodes b !! i) as [node|] eqn:Hnode; [|done]. unfold nodeClick.
    destruct (connectionMode b).
    + destruct (connectionStart b) as [start|]; [|done].
      case_bool_decide; [|done]. intros s. simpl. rewrite connectNodes_nodes.
      unfold connectNodes. case_bool_decide; [apply Hs|].
      destruct (List.find _ _); apply Hs.
    + intros s. simpl. intros [= <-]. exists node. split; [|done].
      by eapply list_elem_of_lookup_2.
  - destruct (selectedNode b) as [s|] eqn:Hsel; [|done].
    unfold removeNode. rewrite Hsel, bool_decide_eq_true_2 by done. by intros s'.
  - destruct (connections b !! i); [|done]. by destruct (_ && _).
  - by destruct (connections b).
  - destruct (selectedNode b) as [s|] eqn:Hsel; [|done].
    intros s'. simpl. intros [= <-]. destruct (Hs s Hsel) as (n & Hn & Hid & Hty & _ & Hcfg).
    exists (with_label n l). split; [|done].
    apply list_elem_of_fmap. exists n. by rewrite bool_decide_eq_true_2.
  - destruct (selectedNode b) as [s|] eqn:Hsel; [|done].
    destruct (editable_key _ _); [|done].
    intros s'. simpl. intros [= <-]. destruct (Hs s Hsel) as (n & Hn & Hid & Hty & Hl & Hcfg).
    exists (with_config n k v). split; [|by simpl; rewrite Hcfg].
    apply list_elem_of_fmap. exists n. by rewrite bool_decide_eq_true_2.
  - destruct (nodes b !! i) as [node|]; [|done].
    intros s. simpl. intros Hsel. destruct (Hs s Hsel) as (n & Hn & Heq).
    exists (if bool_decide (id n = id node) then with_position n (x, y) else n). split.
    + apply list_elem_of_fmap. by exists n.
    + by case_bool_decide.
Qed.

(** As long as the test pipeline is not loaded, the node the properties
    panel shows is a node of the pipeline, and the panel's copy agrees with
    it on id, type, label and configuration, whatever was added, edited,
    dragged, connected or removed. *)
Theorem panel_in_sync (es : list Event) :
  ELoadTestPipeline ∉ es → selected_in_sync (run es initialBuilder).
Proof.
  assert (∀ b, ELoadTestPipeline ∉ es → selected_in_sync b → selected_in_sync (run es b)) as H.
  { induction es as [|e es IH]; intros b Hnot Hs; [done|]. simpl.
    apply IH; [by intros ?; apply Hnot; right|].
    apply handle_keeps_sync; [|done]. intros ->. apply Hnot. left. }
  intros Hnot. apply H; [done|]. by intros s.
Qed.

Lemma panel_in_sync_witness :
  let es := [ENodeClick 1; EEditLabel "Helper"; EEditConfig "agent_id" "agent-7";
             EDragEnd 1 (40 # 1) (60 # 1)] in
  (label <$> selectedNode (run es initialBuilder)) = Some "Helper" ∧
  selected_in_sync (run es initialBuilder).
Proof.
  intros es. split; [reflexivity|].
  apply panel_in_sync. intros H.
  repeat (apply elem_of_cons in H as [H|H]; [discriminate|]).
  by apply elem_of_nil in H.
Defined.

(** Editing the label or the configuration of the selected node and
    dragging a node leave the graph as it is: the same node ids and types
    in the same order, and the same connections. *)
Theorem edits_keep_graph l k v i x y b :
  same_graph b (handle (EEditLabel l) b) ∧
  same_graph b (handle (EEditConfig k v) b) ∧
  same_graph b (handle (EDragEnd i x y) b).
Proof.
  unfold same_graph. split_and!; simpl.
  - destruct (selectedNode b); [|done]. simpl. by apply ids_update_by_id.
  - destruct (selectedNode b); [|done]. simpl. by apply types_update_by_id.
  - by destruct (selectedNode b).
  - destruct (selectedNode b); [|done]. destruct (editable_key _ _); [|done].
    simpl. by apply ids_update_by_id.
  - destruct (selectedNode b); [|done]. destruct (editable_key _ _); [|done].
    simpl. by apply types_update_by_id.
  - destruct (selectedNode b); [|done]. by destruct (editable_key _ _).
  - destruct (nodes b !! i); [|done]. simpl. by apply ids_update_by_id.
  - destruct (nodes b !! i); [|done]. simpl. by apply types_update_by_id.
  - by destruct (nodes b !! i).
Qed.

(** A value chosen in the properties panel for a key of the selected node
    is what is read back under that key, from every node with the selected
    id and from the panel's copy; every other key of those nodes, and the
    whole configuration of the nodes with another id, stay as they were. *)
Theorem edit_config_lookup k v s b :
  selectedNode b = Some s → editable_key (type s) k = true →
  (∀ j n, nodes b !! j = Some n →
     ∃ n', nodes (handle (EEditConfig k v) b) !! j = Some n' ∧
           (id n = id s → config n' !! k = Some v) ∧
           (id n ≠ id s → n' = n) ∧
           (∀ k', k' ≠ k → config n' !! k' = config n !! k') ∧
           label n' = label n ∧ position n' = position n) ∧
  (∃ s', selectedNode (handle (EEditConfig k v) b) = Some s' ∧
         config s' !! k = Some v ∧
         (∀ k', k' ≠ k → config s' !! k' = config s !! k')).
Proof.
  intros Hsel Hkey. simpl. rewrite Hsel, Hkey. simpl. split.
  - intros j n Hn. rewrite list_lookup_fmap, Hn. simpl. eexists. split; [done|].
    case_bool_decide; simpl; split_and!; try done.
    + intros _. apply lookup_insert_eq.
    + intros k' Hk'. by apply lookup_insert_ne.
  - eexists. split; [done|]. simpl. split; [apply lookup_insert_eq|].
    intros k' Hk'. by apply lookup_insert_ne.
Qed.

Lemma edit_config_lookup_witness :
  let b := handle (ENodeClick 1) initialBuilder in
  ∃ n', nodes (handle (EEditConfig "agent_id" "agent-7") b) !! 1%nat = Some n' ∧
        config n' !! "agent_id" = Some "agent-7".
Proof.
  intros b.
  destruct (edit_config_lookup "agent_id" "agent-7"
              {| id := "node-2"; type := "agent"; label := "AI Agent";
                 position := (350, 200)%Q; config := {[ "agent_id" := "" ]} |} b)
    as [Hnodes _]; [reflexivity|reflexivity|].
  destruct (Hnodes 1%nat _ eq_refl) as (n' & Hn' & Hk & _).
  exists n'. split; [done|]. by apply Hk.
Defined.

(** Dropping a dragged node puts every node with its id at the drop point
    and moves no other node; the copy the properties panel holds is not
    touched. *)
Theorem drag_end_moves i x y node b :
  nodes b !! i = Some node →
  (∀ j n, nodes b !! j = Some n →
     nodes (handle (EDragEnd i x y) b) !! j
     = Some (if bool_decide (id n = id node) then with_position n (x, y) else n)) ∧
  (position <$> nodes (handle (EDragEnd i x y) b) !! i) = Some (x, y) ∧
  selectedNode (handle (EDragEnd i x y) b) = selectedNode b.
Proof.
  intros Hnode. simpl. rewrite Hnode. simpl. split_and!; [|by rewrite list_lookup_fmap, Hnode; simpl; rewrite bool_decide_eq_true_2|done].
  intros j n Hn. by rewrite list_lookup_fmap, Hn.
Qed.

Lemma drag_end_moves_witness :
  (position <$> nodes (handle (EDragEnd 1 (40 # 1) (60 # 1)) initialBuilder) !! 1%nat)
  = Some ((40 # 1)%Q, (60 # 1)%Q).
Proof.
  by destruct (drag_end_moves 1 (40 # 1) (60 # 1) _ initialBuilder eq_refl) as (_ & H & _).
Defined.

(** The connect gesture: with connect mode off, pressing "Connect Mode",
    clicking one node and then a node with another id connects the first
    to the second exactly as [connectNodes] does, and leaves connect mode
    with no start picked; nodes and selection are as before. *)
Theorem connect_gesture i j (a z : Node) b :
  connectionMode b = false →
  nodes b !! i = Some a → nodes b !! j = Some z → id a ≠ id z →
  connections (run [EToggleConnectMode; ENodeClick i; ENodeClick j] b)
  = connections (connectNodes (id a) (id z) b) ∧
  ({| from := id a; to := id z |} ∈
     connections (run [EToggleConnectMode; ENodeClick i; ENodeClick j] b)) ∧
  connectionMode (run [EToggleConnectMode; ENodeClick i; ENodeClick j] b) = false ∧
  connectionStart (run [EToggleConnectMode; ENodeClick i; ENodeClick j] b) = None ∧
  nodes (run [EToggleConnectMode; ENodeClick i; ENodeClick j] b) = nodes b ∧
  selectedNode (run [EToggleConnectMode; ENodeClick i; ENodeClick j] b) = selectedNode b.
Proof.
  intros Hmode Ha Hz Hne.
  assert (run [EToggleConnectMode; ENodeClick i; ENodeClick j] b
          = set_connectionMode (set_connectionStart
              (connectNodes (id a) (id z)
                 (set_connectionStart (set_connectionMode b true) (Some a))) None) false) as ->.
  { unfold run. simpl. unfold toggleConnectMode. rewrite Hmode. simpl. rewrite Ha.
    unfold nodeClick at 2. simpl. rewrite Hz.
    unfold nodeClick. simpl. by rewrite bool_decide_eq_true_2. }
  simpl.
  assert (connections (connectNodes (id a) (id z)
            (set_connectionStart (set_connectionMode b true) (Some a)))
          = connections (connectNodes (id a) (id z) b)) as Hconn.
  { unfold connectNodes. case_bool_decide; [done|]. simpl. by destruct (List.find _ _). }
  rewrite Hconn, connectNodes_nodes. split_and!; try done.
  - destruct (connectNodes_connections (id a) (id z) b) as [Hsame|(_ & _ & ->)].
    + rewrite Hsame. unfold connectNodes in Hsame.
      rewrite bool_decide_eq_false_2 in Hsame by done.
      destruct (List.find _ _) as [c0|] eqn:Hfind.
      * apply find_some in Hfind as [Hin Hc0]. apply andb_true_iff in Hc0 as [Hf Ht].
        apply bool_decide_eq_true in Hf, Ht. apply list_elem_of_In in Hin.
        destruct c0; simpl in *; by subst.
      * simpl in Hsame. exfalso. apply (f_equal length) in Hsame.
        rewrite length_app in Hsame. simpl in Hsame. lia.
    + apply elem_of_app. right. left.
  - unfold connectNodes. case_bool_decide; [done|]. by destruct (List.find _ _).
Qed.

Lemma connect_gesture_witness :
  connections (run [EToggleConnectMode; ENodeClick 0; ENodeClick 2] initialBuilder)
  = defaultConnections ++ [{| from := "node-1"; to := "node-3" |}].
Proof.
  by destruct (connect_gesture 0 2 _ _ initialBuilder eq_refl eq_refl eq_refl
                 ltac:(by_evaluation)) as [-> _].
Defined.

(** Adding a node and removing it again gives back the state from before,
    when the id the clock gave was not in use by a node and the connections
    and the selection name nodes of the pipeline only. *)
Theorem removeNode_addNode nodeTypes now rx ry ty b :
  node_id_of_clock now ∉ ids (nodes b) →
  ends_exist (nodes b) (connections b) →
  selected_exists b →
  removeNode (node_id_of_clock now) (addNode nodeTypes now rx ry ty b) = b.
Proof.
  intros Hfresh He Hs.
  assert (filter (λ n, id n ≠ node_id_of_clock now) (nodes b) = nodes b) as Hn.
  { apply filter_keeps_all, Forall_forall. intros n Hn Heq. apply Hfresh.
    rewrite <- Heq. apply list_elem_of_fmap. eauto. }
  assert (filter (λ c, from c ≠ node_id_of_clock now ∧ to c ≠ node_id_of_clock now)
            (connections b) = connections b) as Hc.
  { apply filter_keeps_all, Forall_forall. intros c Hc. destruct (He c Hc) as [Hf Ht].
    split; intros Heq; apply Hfresh; by rewrite <- Heq. }
  unfold addNode. destruct (List.find _ _) as [nodeType|].
  - unfold removeNode. simpl. rewrite filter_app, Hn, Hc.
    rewrite filter_cons_False, filter_nil, app_nil_r by (simpl; by intros Hx; apply Hx).
    destruct (selectedNode b) as [s|] eqn:Hsel.
    + rewrite bool_decide_eq_false_2; [by destruct b|].
      intros Heq. apply Hfresh. rewrite <- Heq. by apply Hs.
    + by destruct b.
  - unfold removeNode. rewrite Hn, Hc.
    destruct (selectedNode b) as [s|] eqn:Hsel.
    + rewrite bool_decide_eq_false_2; [by destruct b|].
      intros Heq. apply Hfresh. rewrite <- Heq. by apply Hs.
    + by destruct b.
Qed.

Lemma removeNode_addNode_witness :
  removeNode "node-1750000000000"
    (addNode [ {| nt_type := "text"; nt_label := "Text Transform";
                  nt_config_schema := Some [("operation", Some "uppercase")] |} ]
       1750000000000 (1 # 2) (1 # 2) "text" initialBuilder)
  = initialBuilder.
Proof.
  apply (removeNode_addNode _ 1750000000000).
  - by_evaluation.
  - apply ends_exist_Forall. by_evaluation.
  - by intros s.
Defined.

End builder_invariants.
